(** * Real-time MIDI guitar: pitch estimator, note mapper and note tracker

    A shallow embedding of the numerical core of the repository:

    - [js/utils.js]            ([Utils]): frequency <-> MIDI note mapping;
    - [js/audioProcessor.js]   ([AudioProcessor]): the YIN pitch estimator;
    - [js/midiConverter.js]    ([MIDIConverter]): the active-note tracker;
    - [js/app.js]              ([App]): the wiring of the three.

    JavaScript numbers are IEEE-754 binary64 values.  The estimator is
    embedded over Rocq's primitive binary64 floats, so [+ - * / <] are the
    operations the JavaScript engine performs, bit for bit, and NaN,
    infinities and signed zeros behave as they do there; a store to a
    [Float32Array] rounds to binary32.  The note mapper of [Utils] is
    embedded over the same binary64 numbers.  [Math.round] is exact and is
    written out; [Math.log2] and [Math.pow] are written with the cases
    ECMAScript fixes, and the values it leaves implementation-approximated
    are parameters of the embedding.  The formulas of the specification
    are stated over the real numbers ([Spec]) and compared with the code
    through the real number a binary64 value denotes ([Real64]).  The
    tracker is embedded and verified for an arbitrary mapping from
    frequencies to notes.

    Objects are passed explicitly: a method takes the fields of [this] it
    uses and returns the ones it writes, together with what it sends or
    throws.  Part I holds the embedding, the definitions the statements
    are written with, and the sample inputs; Parts II to V hold the
    proofs, component by component. *)

From Stdlib Require Import ZArith Reals Lra Lia Bool.
From Stdlib Require Import Floats.PrimFloat Floats.SpecFloat Floats.FloatOps Floats.FloatAxioms.
From Stdlib Require Uint63.
From stdpp Require Import base list.

Set Default Proof Using "Type".

(* ===================================================================== *)
(** * Part I: the embedding                                               *)
(* ===================================================================== *)

(** ** JavaScript values used by the estimator *)

Module JS.
Local Open Scope float_scope.

(** [ToNumber]: reading outside a typed array yields [undefined], which
    arithmetic converts to NaN. *)
Definition ToNumber (v : option float) : float := default nan v.

(** [ToBoolean] on a number: NaN, +0 and -0 are falsy. *)
Definition ToBoolean (x : float) : bool :=
  negb (PrimFloat.is_nan x || PrimFloat.is_zero x).

(** An array index or loop counter as a number (exact below 2^53). *)
Definition Number_of_nat (n : nat) : float :=
  of_uint63 (Uint63.of_Z (Z.of_nat n)).

Definition Number_of_Z (z : Z) : float :=
  if (z <? 0)%Z then - Number_of_nat (Z.to_nat (- z)) else Number_of_nat (Z.to_nat z).

(** Biased exponents used by [Math_fround]: [frshiftexp] and [ldshiftexp]
    count exponents from -2101. *)
Definition fround_min_exponent : PrimInt63.int := Eval cbv in Uint63.of_Z 1976.
Definition fround_min_shift : PrimInt63.int := Eval cbv in Uint63.of_Z 2004.
Definition fround_shift : PrimInt63.int := Eval cbv in Uint63.of_Z 28.

(** The conversion a [Float32Array] applies on every store ([Math.fround]):
    round to the nearest binary32 value, ties to even, overflowing to an
    infinity from [2^128 - 2^103] on.  For [2^E <= |x| < 2^(E+1)] the
    binary32 values around [|x|] are the multiples of [2^u] with
    [u = max (E - 23) (-149)].  Adding [M = 1.5 * 2^(u + 52)] to [|x|]
    gives a binary64 sum in [[2^(u+52), 2^(u+53))], where consecutive
    binary64 values are [2^u] apart, so the addition rounds [|x|] to the
    nearest multiple of [2^u], ties to even, and subtracting [M] again is
    exact.  [frshiftexp |x|] returns the exponent [s = E + 1 + 2101], and
    [u + 52 + 2101] is [s + 28], or [2004] when [s <= 1976]. *)
Definition Math_fround (x : float) : float :=
  if PrimFloat.is_nan x || PrimFloat.is_infinity x || PrimFloat.is_zero x then x else
  let a := PrimFloat.abs x in
  let sgn (r : float) := if x <? 0 then - r else r in
  if 0x1p128 <=? a then sgn infinity else
  let e := snd (frshiftexp a) in
  let ue := if Uint63.leb e fround_min_exponent then fround_min_shift
            else Uint63.add e fround_shift in
  let M := ldshiftexp 0x1.8p0 ue in
  let r := (a + M) - M in
  if 0x1p128 <=? r then sgn infinity else sgn r.

(** The same conversion written with the Standard Library's reference
    rounding of IEEE-754 formats (precision 24, exponent bound 128); it is
    used only to cross-check [Math_fround]. *)
Definition Math_fround_reference (x : float) : float :=
  match Prim2SF x with
  | S754_finite s m e => SF2Prim (binary_round 24 128 s m e)
  | _ => x
  end.

(** A [Float32Array] is a fixed-length sequence of binary32 values. *)
Abbreviation Float32Array := (list float).

(** [a[i]] for an integer index: [None] is [undefined]. *)
Definition Float32Array_get (a : Float32Array) (i : Z) : option float :=
  if (i <? 0)%Z then None else a !! Z.to_nat i.

(** [a[i]] used as a number, for a loop counter [i] and for an integer. *)
Definition get (a : Float32Array) (i : nat) : float := ToNumber (a !! i).
Definition getZ (a : Float32Array) (i : Z) : float := ToNumber (Float32Array_get a i).

(** [a[i] = v]: the value is rounded to binary32; a store outside the
    array is ignored. *)
Definition put (a : Float32Array) (i : nat) (v : float) : Float32Array :=
  <[i := Math_fround v]> a.

(** [new Float32Array(n)] *)
Definition Float32Array_new (n : nat) : Float32Array := replicate n 0.

(** [target.set(source)]: a source longer than the target raises a
    RangeError before anything is written ([None]); otherwise the source,
    each element stored as binary32, overwrites the start of the target. *)
Definition Float32Array_set (target : Float32Array) (source : list float)
  : option Float32Array :=
  if (length target <? length source)%nat then None
  else Some (map Math_fround source ++ drop (length source) target).

(** How a call completes: normally, or by throwing a RangeError; either
    way with the state it leaves. *)
Inductive completion (A : Type) : Type :=
| Normal (a : A)
| Throw_RangeError (a : A).
Arguments Normal {A} a.
Arguments Throw_RangeError {A} a.

End JS.

(** ** Binary64 values as real numbers *)

Module Real64.
Local Open Scope R_scope.

(** [2^e] for an integer exponent. *)
Definition bpow (e : Z) : R :=
  if (0 <=? e)%Z then IZR (2 ^ e) else / IZR (2 ^ (- e)).

(** The real number a binary64 value denotes; 0 for NaN and the
    infinities. *)
Definition SF2R (x : spec_float) : R :=
  match x with
  | S754_finite s m e => IZR (cond_Zopp s (Zpos m)) * bpow e
  | _ => 0
  end.

Definition to_R (x : float) : R := SF2R (Prim2SF x).

(** A zero or a finite non-zero number. *)
Definition is_finite (x : float) : bool :=
  match Prim2SF x with
  | S754_zero _ | S754_finite _ _ _ => true
  | _ => false
  end.

(** A result that is a zero or a finite number. *)
Definition SF_finite (x : spec_float) : Prop :=
  match x with S754_zero _ | S754_finite _ _ _ => True | _ => False end.

(** The first component of [shr_fexp]: the mantissa divided by [2^k], where
    [k] is the number of bits dropped. *)
Definition dropped (prec emax m e : Z) : Z :=
  Z.max 0 (fexp prec emax (Zdigits2 m + e) - e).

(** Replace [bpow] of a literal exponent by the number. *)
Ltac bpow_num :=
  repeat match goal with
    | |- context [bpow ?e] =>
        let v := eval vm_compute in e in
        lazymatch v with
        | Zneg _ => let b := eval vm_compute in (2 ^ (- v))%Z in change (bpow e) with (/ IZR b)
        | _ => let b := eval vm_compute in (2 ^ v)%Z in change (bpow e) with (IZR b)
        end
    end.

(** Evaluate [to_R] at a literal. *)
Ltac to_R_num x :=
  unfold to_R;
  let v := eval vm_compute in (Prim2SF x) in
  change (Prim2SF x) with v; cbn [SF2R cond_Zopp]; bpow_num.

End Real64.

(** ** js/utils.js: the note mapper

    [MIDIConverter.frequencyToMidiNote] in [js/midiConverter.js] has the
    same body as [frequencyToMidiNote] here. *)

Module Utils.
Import JS.
Local Open Scope float_scope.

(** An integer below [2^63] in absolute value as a number. *)
Definition Number_of_integer (z : Z) : float :=
  if (z <? 0)%Z then - of_uint63 (Uint63.of_Z (- z)) else of_uint63 (Uint63.of_Z z).

(** [Math.round]: NaN, the infinities, the zeros and the integral numbers
    are returned as they are; any other number [x = z * 2^e], with
    [e < 0], becomes the integer [floor (x + 1/2)], computed exactly, and
    -0 where that is zero and [x] is negative. *)
Definition Math_round (x : float) : float :=
  match Prim2SF x with
  | S754_finite s m e =>
      if (0 <=? e)%Z then x
      else
        let n := ((2 * cond_Zopp s (Zpos m) + 2 ^ (- e)) / 2 ^ (1 - e))%Z in
        if (n =? 0)%Z then (if s then -0 else 0) else Number_of_integer n
  | _ => x
  end.

Section Approximated.
(** The values ECMAScript leaves implementation-approximated. *)
Variable log2_approx : float -> float.
Variable pow_approx : float -> float -> float.

(** [Math.log2] *)
Definition Math_log2 (x : float) : float :=
  if PrimFloat.is_nan x || (x =? infinity) then x
  else if x =? 1 then 0
  else if PrimFloat.is_zero x then neg_infinity
  else if x <? 0 then nan
  else log2_approx x.

(** An integral number that is odd. *)
Definition is_odd_integer (x : float) : bool :=
  match Prim2SF x with
  | S754_finite _ m e =>
      if (0 <? e)%Z then false
      else (Zpos m mod 2 ^ (- e) =? 0)%Z && Z.odd (Zpos m / 2 ^ (- e))
  | _ => false
  end.

Definition is_integral (x : float) : bool :=
  match Prim2SF x with
  | S754_finite _ m e => (0 <=? e)%Z || (Zpos m mod 2 ^ (- e) =? 0)%Z
  | S754_zero _ => true
  | _ => false
  end.

(** [Math.pow]: [Number::exponentiate]. *)
Definition Math_pow (base exponent : float) : float :=
  if PrimFloat.is_nan exponent then nan
  else if PrimFloat.is_zero exponent then 1
  else if PrimFloat.is_nan base then nan
  else if base =? infinity then (if 0 <? exponent then infinity else 0)
  else if base =? neg_infinity then
    if 0 <? exponent then (if is_odd_integer exponent then neg_infinity else infinity)
    else (if is_odd_integer exponent then -0 else 0)
  else if PrimFloat.is_zero base then
    if get_sign base then
      if 0 <? exponent then (if is_odd_integer exponent then -0 else 0)
      else (if is_odd_integer exponent then neg_infinity else infinity)
    else (if 0 <? exponent then 0 else infinity)
  else if exponent =? infinity then
    if 1 <? PrimFloat.abs base then infinity
    else if PrimFloat.abs base =? 1 then nan else 0
  else if exponent =? neg_infinity then
    if 1 <? PrimFloat.abs base then 0
    else if PrimFloat.abs base =? 1 then nan else infinity
  else if (base <? 0) && negb (is_integral exponent) then nan
  else pow_approx base exponent.

(** [frequencyToMidiNote(frequency)] *)
Definition frequencyToMidiNote (frequency : float) : float :=
  Math_round (69 + 12 * Math_log2 (frequency / 440)).

(** [midiNoteToFrequency(midiNote)] *)
Definition midiNoteToFrequency (midiNote : float) : float :=
  440 * Math_pow 2 ((midiNote - 69) / 12).

End Approximated.

(** The exponent [(n - 69) / 12] of note [n] is a finite number within
    [2^-40] of the exact quotient: decided on the mantissa. *)
Definition exponent_ok (n : Z) : bool :=
  match Prim2SF ((Number_of_Z n - 69) / 12) with
  | S754_zero _ => (n =? 69)%Z
  | S754_finite s m e =>
      (e <? 0)%Z &&
      (Z.abs (12 * cond_Zopp s (Zpos m) - (n - 69) * 2 ^ (- e)) * 2 ^ 40 <=? 12 * 2 ^ (- e))%Z
  | _ => false
  end.

End Utils.

(** ** The note mapping of the specification, over the real numbers *)

Module Spec.
Local Open Scope R_scope.


Definition log2 (x : R) : R := ln x / ln 2.


(** [noteToFrequency(n) = 440 * 2^((n - 69) / 12)] *)
Definition noteToFrequency (n : R) : R := 440 * Rpower 2 ((n - 69) / 12).

End Spec.

(** ** js/audioProcessor.js: the YIN estimator *)

Module AudioProcessor.
Import JS.
Local Open Scope float_scope.

Definition BUFFER_SIZE : nat := 2048.
(** [0.15] as the binary64 value the literal denotes. *)
Definition YIN_THRESHOLD : float := 0x1.3333333333333p-3.
Definition SAMPLE_RATE : float := 44100.

(** The fields of an [AudioProcessor] the estimator uses.  The callback
    acts on the state [W] of whoever registered it. *)
Record t (W : Type) : Type := mk {
  audioBuffer : Float32Array;
  yinBuffer : Float32Array;
  onPitchDetected : option (float -> W -> W)
}.
Arguments mk {W} _ _ _.
Arguments audioBuffer {W} _.
Arguments yinBuffer {W} _.
Arguments onPitchDetected {W} _.

(** [constructor()] *)
Definition new (W : Type) : t W :=
  mk (Float32Array_new BUFFER_SIZE) (Float32Array_new (BUFFER_SIZE / 2)) None.

(** [initialize(pitchCallback)], the part that touches the estimator. *)
Definition initialize {W} (pitchCallback : float -> W -> W) (this : t W) : t W :=
  mk (audioBuffer this) (yinBuffer this) (Some pitchCallback).

(** The methods below take and return the [yinBuffer] field, the only
    field they write. *)

(** One pass of the inner loop of [difference]. *)
Definition difference_inner (buffer : Float32Array) (tau : nat)
  (yinBuffer : Float32Array) (i : nat) : Float32Array :=
  let delta := get buffer i - get buffer (i + tau) in
  put yinBuffer tau (get yinBuffer tau + delta * delta).

Definition difference (buffer : Float32Array) (yinBuffer : Float32Array)
  : Float32Array :=
  let n := length yinBuffer in
  let yinBuffer := fold_left (fun yb tau => put yb tau 0) (seq 0 n) yinBuffer in
  fold_left
    (fun yb tau => fold_left (difference_inner buffer tau) (seq 0 n) yb)
    (seq 1 (n - 1)) yinBuffer.

(** One pass of the loop of [cumulativeMeanNormalizedDifference].  The
    state is the running sum, the buffer, and the divisors used so far
    (kept only to state what is divided by what). *)
Definition cmnd_step (st : float * Float32Array * list float) (tau : nat)
  : float * Float32Array * list float :=
  let '(runningSum, yinBuffer, divisors) := st in
  let runningSum := runningSum + get yinBuffer tau in
  (runningSum,
   put yinBuffer tau (get yinBuffer tau * (Number_of_nat tau / runningSum)),
   divisors ++ [runningSum]).

Definition cmnd_loop (yinBuffer : Float32Array)
  : float * Float32Array * list float :=
  let yinBuffer := put yinBuffer 0 1 in
  fold_left cmnd_step (seq 1 (length yinBuffer - 1)) (0, yinBuffer, []).

Definition cumulativeMeanNormalizedDifference (yinBuffer : Float32Array)
  : Float32Array :=
  snd (fst (cmnd_loop yinBuffer)).

(** The divisors of the divisions [tau / runningSum], in order. *)
Definition cumulativeMeanNormalizedDifference_divisors
  (yinBuffer : Float32Array) : list float :=
  snd (cmnd_loop yinBuffer).

(** The [while] loop of [absoluteThreshold]; [fuel] bounds the number of
    iterations, and [length yinBuffer] is always enough. *)
Fixpoint absoluteThreshold_descend (yinBuffer : Float32Array) (fuel tau : nat) : nat :=
  match fuel with
  | O => tau
  | S fuel =>
      if (tau + 1 <? length yinBuffer)%nat && (get yinBuffer (tau + 1) <? get yinBuffer tau)
      then absoluteThreshold_descend yinBuffer fuel (tau + 1)
      else tau
  end.

(** The [for] loop of [absoluteThreshold], from [tau]. *)
Fixpoint absoluteThreshold_from (yinBuffer : Float32Array) (fuel tau : nat) : Z :=
  match fuel with
  | O => -1
  | S fuel =>
      if (tau <? length yinBuffer)%nat then
        if get yinBuffer tau <? YIN_THRESHOLD
        then Z.of_nat (absoluteThreshold_descend yinBuffer (length yinBuffer) tau)
        else absoluteThreshold_from yinBuffer fuel (tau + 1)
      else -1
  end.

Definition absoluteThreshold (yinBuffer : Float32Array) : Z :=
  absoluteThreshold_from yinBuffer (length yinBuffer) 1.

Definition parabolicInterpolation (yinBuffer : Float32Array) (tau : Z) : float :=
  let y1 := getZ yinBuffer (tau - 1) in
  let y2 := getZ yinBuffer tau in
  let y3 := getZ yinBuffer (tau + 1) in
  let betterTau := Number_of_Z tau + (y3 - y1) / (2 * (2 * y2 - y1 - y3)) in
  betterTau.

(** [detectPitch]: the new [yinBuffer] and the result, [None] for [null]. *)
Definition detectPitch (buffer : Float32Array) (yinBuffer : Float32Array)
  : Float32Array * option float :=
  let yinBuffer := difference buffer yinBuffer in
  let yinBuffer := cumulativeMeanNormalizedDifference yinBuffer in
  let tau := absoluteThreshold yinBuffer in
  if (tau =? -1)%Z then (yinBuffer, None)
  else
    let betterTau := parabolicInterpolation yinBuffer tau in
    let pitch := SAMPLE_RATE / betterTau in
    (yinBuffer, Some pitch).

(** [pitch && this.onPitchDetected] *)
Definition truthy (pitch : option float) : bool :=
  match pitch with
  | None => false
  | Some p => ToBoolean p
  end.

Definition processAudio {W} (inputBuffer : list float) (this : t W) (w : W)
  : completion (t W * W) :=
  match Float32Array_set (audioBuffer this) inputBuffer with
  | None => Throw_RangeError (this, w)
  | Some audioBuffer' =>
      let '(yinBuffer', pitch) := detectPitch audioBuffer' (yinBuffer this) in
      let this' := mk audioBuffer' yinBuffer' (onPitchDetected this) in
      match pitch, onPitchDetected this with
      | Some p, Some callback =>
          if truthy pitch then Normal (this', callback p w) else Normal (this', w)
      | _, _ => Normal (this', w)
      end
  end.

(** *** Specification-side definitions *)

(** The difference function of the specification at lag [tau]: the sum
    over [i < n] of [(x[i] - x[i + tau])^2], accumulated in index order in
    the arithmetic of the buffer (binary64 operations, the running total
    rounded to binary32). *)
Definition difference_term (x : Float32Array) (tau : nat) (acc : float) (i : nat)
  : float :=
  let delta := get x i - get x (i + tau) in
  Math_fround (acc + delta * delta).

Definition differenceFunction (x : Float32Array) (n tau : nat) : float :=
  fold_left (difference_term x tau) (seq 0 n) 0.

(** The same sum over the samples themselves, [xs] against [ys], [n]
    terms; and with it the buffer [difference] leaves for a frame [x] and
    a buffer of [n] entries ([difference_eq_closed] below).  The proofs
    evaluate concrete frames through it. *)
Fixpoint squaredDifferences (xs ys : list float) (n : nat) (acc : float) : float :=
  match n, xs, ys with
  | S n, x :: xs, y :: ys =>
      let delta := x - y in
      squaredDifferences xs ys n (Math_fround (acc + delta * delta))
  | _, _, _ => acc
  end.

Definition difference_closed (x : Float32Array) (n : nat) : Float32Array :=
  match n with
  | O => []
  | S m => 0 :: map (fun tau => squaredDifferences x (drop tau x) n 0) (seq 1 m)
  end.

(** A sample of a silent frame: a zero of either sign. *)
Definition silent (s : float) : Prop := s = 0 ∨ s = -0.

End AudioProcessor.

(** ** js/midiConverter.js: the note tracker *)

Module MIDIConverter.
Local Open Scope float_scope.

(** An element of [detectedPitches]. *)
Record Pitch : Type := mkPitch { freq : float; probability : float }.

Section Converter.
(** [Note]: the values [frequencyToMidiNote] returns, with the equality a
    JavaScript [Set] compares its elements by (SameValueZero: NaN equals
    NaN, +0 equals -0).  [MIDIOutput]: the output ports of the Web MIDI
    API. *)
Context {Note : Type} `{EqDecision Note} {MIDIOutput : Type}.
(** [frequencyToMidiNote(frequency)], in the source
    [Math.round(69 + 12 * Math.log2(frequency / 440))].  The tracker only
    stores and compares what it returns, so it is embedded for any
    mapping. *)
Variable frequencyToMidiNote : float -> Note.

(** The array given to [midiOutput.send]: status byte, note, velocity. *)
Definition MIDIMessage : Type := Z * Note * Z.
Definition NoteOn (midiNote : Note) (velocity : Z) : MIDIMessage := (0x90%Z, midiNote, velocity).
Definition NoteOff (midiNote : Note) : MIDIMessage := (0x80%Z, midiNote, 0%Z).

(** A JavaScript [Set]: its elements in insertion order, which is the
    order [forEach] visits them in.  [add] appends an absent element and
    [delete] removes the element. *)
Definition Set_has (s : list Note) (x : Note) : bool := bool_decide (x ∈ s).
Definition Set_add (s : list Note) (x : Note) : list Note :=
  if Set_has s x then s else s ++ [x].
Definition Set_delete (s : list Note) (x : Note) : list Note :=
  filter (λ y, y ≠ x) s.

Record t : Type := mk {
  midiOutput : option MIDIOutput;
  activeNotes : list Note
}.

(** [constructor()] *)
Definition new : t := mk None [].

(** [setupMIDIOutput()]: the first of the available outputs, if any, is
    selected. *)
Definition setupMIDIOutput (outputs : list MIDIOutput) (this : t) : t :=
  match outputs with
  | output :: _ => mk (Some output) (activeNotes this)
  | [] => this
  end.

(** Every method returns the converter and the messages it sent, in
    order. *)
Definition sendNoteOn (midiNote : Note) (velocity : Z) (this : t)
  : t * list MIDIMessage :=
  match midiOutput this with
  | None => (this, [])
  | Some _ =>
      if negb (Set_has (activeNotes this) midiNote)
      then (mk (midiOutput this) (Set_add (activeNotes this) midiNote),
            [NoteOn midiNote velocity])
      else (this, [])
  end.

Definition sendNoteOff (midiNote : Note) (this : t) : t * list MIDIMessage :=
  match midiOutput this with
  | None => (this, [])
  | Some _ =>
      if Set_has (activeNotes this) midiNote
      then (mk (midiOutput this) (Set_delete (activeNotes this) midiNote),
            [NoteOff midiNote])
      else (this, [])
  end.

(** The body of the first [forEach] of [handleDetectedPitches]; the state
    is [detectedNotes], the converter and the messages sent so far.
    [a >= b] on numbers is [b <= a], false when either is NaN. *)
Definition detect_step (noteThreshold : float)
  (st : list Note * t * list MIDIMessage) (pitch : Pitch)
  : list Note * t * list MIDIMessage :=
  let '(detectedNotes, this, sent) := st in
  if noteThreshold <=? probability pitch then
    let midiNote := frequencyToMidiNote (freq pitch) in
    let detectedNotes := Set_add detectedNotes midiNote in
    let '(this, out) := sendNoteOn midiNote 100 this in
    (detectedNotes, this, sent ++ out)
  else st.

(** The body of the second [forEach]. *)
Definition release_step (detectedNotes : list Note)
  (st : t * list MIDIMessage) (activeNote : Note) : t * list MIDIMessage :=
  let '(this, sent) := st in
  if negb (Set_has detectedNotes activeNote) then
    let '(this, out) := sendNoteOff activeNote this in
    (this, sent ++ out)
  else st.

(** [Set.prototype.forEach] visits the elements present when the loop
    reaches them.  The callback of the second loop removes at most the
    element being visited and adds none, so the loop visits the elements
    the set holds when it starts. *)
Definition handleDetectedPitches (detectedPitches : list Pitch)
  (noteThreshold : float) (this : t) : t * list MIDIMessage :=
  let '(detectedNotes, this, sent) :=
    fold_left (detect_step noteThreshold) detectedPitches ([], this, []) in
  fold_left (release_step detectedNotes) (activeNotes this) (this, sent).

(** *** Specification-side definitions *)

(** The notes a call switches on: the candidates that are not active, each
    at its first occurrence. *)
Fixpoint newNotes (active cands : list Note) : list Note :=
  match cands with
  | [] => []
  | n :: cands =>
      if decide (n ∈ active) then newNotes active cands
      else n :: newNotes (active ++ [n]) cands
  end.

(** The candidate notes of a call: the notes of the pitches whose
    probability reaches the threshold, in order. *)
Definition candidateNotes (detectedPitches : list Pitch) (noteThreshold : float)
  : list Note :=
  map (λ p, frequencyToMidiNote (freq p))
      (filter (λ p, (noteThreshold <=? probability p) = true) detectedPitches).

End Converter.

Arguments t : clear implicits.
Arguments MIDIMessage : clear implicits.

End MIDIConverter.

(** ** js/app.js: the wiring *)

Module App.
Import JS.
Local Open Scope float_scope.

Section App.
Context {Note : Type} `{EqDecision Note} {MIDIOutput : Type}.
Variable frequencyToMidiNote : float -> Note.

(** The application state the pitch callback reads and writes, with the
    messages sent to the MIDI output so far. *)
Record t : Type := mk {
  midiConverter : MIDIConverter.t Note MIDIOutput;
  onsetThreshold : float;
  noteThreshold : float;
  sent : list (MIDIConverter.MIDIMessage Note)
}.

(** [constructor()]; [0.02] and [0.8] as binary64 values. *)
Definition new : t :=
  mk MIDIConverter.new 0x1.47ae147ae147bp-6 0x1.999999999999ap-1 [].

(** [initialize()]: the converter selects its output among [outputs], the
    MIDI outputs present (none when MIDI access is unavailable). *)
Definition initialize (outputs : list MIDIOutput) (this : t) : t :=
  mk (MIDIConverter.setupMIDIOutput outputs (midiConverter this))
     (onsetThreshold this) (noteThreshold this) (sent this).

(** The array [handlePitchDetected] builds for the tracker. *)
Definition detectedPitches_of (pitch : float) : list MIDIConverter.Pitch :=
  [MIDIConverter.mkPitch pitch 1].

Definition handlePitchDetected (pitch : float) (this : t) : t :=
  let detectedPitches := detectedPitches_of pitch in
  let '(mc, out) :=
    MIDIConverter.handleDetectedPitches frequencyToMidiNote detectedPitches
      (noteThreshold this) (midiConverter this) in
  mk mc (onsetThreshold this) (noteThreshold this) (sent this ++ out).

(** [start()]: the estimator is given [handlePitchDetected] as callback. *)
Definition start (ap : AudioProcessor.t t) : AudioProcessor.t t :=
  AudioProcessor.initialize handlePitchDetected ap.

(** [scriptProcessor.onaudioprocess]: one frame through the pipeline. *)
Definition onaudioprocess (frame : list float) (st : AudioProcessor.t t * t)
  : completion (AudioProcessor.t t * t) :=
  AudioProcessor.processAudio frame (fst st) (snd st).

End App.

Arguments t : clear implicits.

End App.

(** ** Sample inputs *)

Module Samples.
Import JS.
Local Open Scope float_scope.

(** A stand-in for the note mapping with two values, for instances of the
    tracker's theorems: notes are integers. *)
Definition sample_mapping (frequency : float) : Z :=
  if frequency <? 300 then 60%Z else 64%Z.

(** Three pitches: 261.63 Hz and 330 Hz with probability 1, and one of
    probability 0.5. *)
Definition sample_pitches : list MIDIConverter.Pitch :=
  [MIDIConverter.mkPitch 0x1.05a147ae147aep+8 1;
   MIDIConverter.mkPitch 330 0x1p-1;
   MIDIConverter.mkPitch 330 1].

(** A pitch callback that records the pitches it is given, latest first. *)
Definition record_pitch (pitch : float) (log : list float) : list float :=
  pitch :: log.

(** Numbers on which [Math_fround] is compared with the reference
    rounding: ties, the largest binary32 value and the overflow threshold,
    the subnormal range of binary32 and of binary64, and ordinary values;
    each is also taken negated. *)
Definition fround_test_values : list float :=
  let positive :=
    [0x1.999999999999ap-4; 0x1.3333333333333p-3; 0x1.5555555555555p-2; 1; 3; 1023;
     0x1.0000010000000p0; 0x1.0000030000000p0; 0x1.0000010000001p0;
     0x1.000002fffffffp0; 16777217; 16777219; 0x1.0000028p24; 33554434; 33554438;
     0x1.fffffep127; 0x1.fffffefffffffp127; 0x1.ffffffp127; 0x1.fffffffp127;
     0x1p128; 0x1.d6329f1c35ca5p132; 0x1p1000; 0x1.fffffffffffffp1023;
     0x1p-126; 0x1.fffffffp-127; 0x1.fffffcp-127; 0x1p-149; 0x1.8p-149; 0x1.4p-149;
     0x1p-150; 0x1.8p-150; 0x1.0000000000001p-150; 0x1.6d601ad376ab9p-150;
     0x1.244ce242c5561p-153; 0x1p-1022; 0x1p-1074] in
  positive ++ map PrimFloat.opp positive ++ [0; -0; infinity; neg_infinity; nan].

(** Frames of [BUFFER_SIZE] samples.  Silence. *)
Definition silence_frame : list float := replicate AudioProcessor.BUFFER_SIZE 0.

(** A unit impulse every 1023 samples: period 1023, the longest lag the
    estimator examines. *)
Definition impulse_frame : list float :=
  map (fun i => if (i mod 1023 =? 0)%nat then 1 else 0) (seq 0 AudioProcessor.BUFFER_SIZE).

(** Ones and zeros alternating, with the sample at index 2 halved: almost
    periodic with period 2. *)
Definition wobble_frame : list float :=
  map (fun i => if (i =? 2)%nat then 0x1p-1 else if Nat.even i then 1 else 0)
      (seq 0 AudioProcessor.BUFFER_SIZE).

(** The same without its last sample: one sample short of a frame. *)
Definition short_frame : list float := take 2047 wobble_frame.

(** A frame of twice the length. *)
Definition long_frame : list float := wobble_frame ++ wobble_frame.

(** What the estimator leaves in [yinBuffer] for [impulse_frame]: the
    normalized difference is 1 at every lag but the last, where it is 0. *)
Definition impulse_yin : list float := replicate 1023 1 ++ [0].

(** What it leaves for [wobble_frame], evaluated once. *)
Definition wobble_yin : list float :=
  Eval vm_compute in
    AudioProcessor.cumulativeMeanNormalizedDifference
      (AudioProcessor.difference_closed wobble_frame 1024).

(** The pitch it returns for [wobble_frame], 23211.84... Hz, and one minus
    the normalized difference at the lag found there, 0.99902... *)
Definition wobble_pitch : float := 0x1.6aaf5cf04e1bbp+14.
Definition wobble_confidence : float := 0x1.ff7fdff8p-1.




End Samples.

(* ===================================================================== *)
(** * Part II: the note tracker                                           *)
(* ===================================================================== *)

Module TrackerFacts.
Import MIDIConverter.

Section Facts.
Context {Note : Type} `{EqDecision Note} {MIDIOutput : Type}.
Variable frequencyToMidiNote : float -> Note.

Abbreviation handle := (handleDetectedPitches (MIDIOutput:=MIDIOutput) frequencyToMidiNote).
Abbreviation cands := (candidateNotes frequencyToMidiNote).

(** *** The [Set] operations *)

Lemma Set_has_true (s : list Note) x : Set_has s x = true ↔ x ∈ s.
Proof. unfold Set_has. apply bool_decide_eq_true. Qed.

Lemma Set_has_false (s : list Note) x : Set_has s x = false ↔ x ∉ s.
Proof. unfold Set_has. apply bool_decide_eq_false. Qed.

Lemma elem_of_Set_add (s : list Note) x y : y ∈ Set_add s x ↔ y ∈ s ∨ y = x.
Proof.
  unfold Set_add. destruct (Set_has s x) eqn:E.
  - apply Set_has_true in E. split; [tauto|]. intros [?| ->]; done.
  - rewrite elem_of_app, list_elem_of_singleton. done.
Qed.

Lemma NoDup_Set_add (s : list Note) x : NoDup s → NoDup (Set_add s x).
Proof.
  intros Hs. unfold Set_add. destruct (Set_has s x) eqn:E; [done|].
  apply Set_has_false in E. apply NoDup_app. split_and!; [done| |apply NoDup_singleton].
  intros y Hy ->%list_elem_of_singleton. done.
Qed.

Lemma elem_of_Set_delete (s : list Note) x y : y ∈ Set_delete s x ↔ y ∈ s ∧ y ≠ x.
Proof. unfold Set_delete. rewrite list_elem_of_filter. tauto. Qed.

Lemma Set_delete_absent (s : list Note) x : x ∉ s → Set_delete s x = s.
Proof.
  unfold Set_delete. induction s as [|y s IH]; [done|].
  rewrite not_elem_of_cons. intros [Hxy Hs].
  rewrite filter_cons_True by done. by rewrite IH.
Qed.

Lemma Set_delete_middle (kept l : list Note) x :
  NoDup (kept ++ x :: l) → Set_delete (kept ++ x :: l) x = kept ++ l.
Proof.
  intros Hnd. apply NoDup_app in Hnd as (_ & Hdisj & Hxl).
  apply NoDup_cons in Hxl as [Hx _].
  unfold Set_delete. rewrite filter_app, filter_cons_False by (intros ?; done).
  fold (Set_delete kept x) (Set_delete l x).
  rewrite !Set_delete_absent; [done|done|].
  intros Hk. apply (Hdisj x Hk). left.
Qed.

(** *** The notes switched on *)

Lemma elem_of_newNotes (cs active : list Note) n :
  n ∈ newNotes active cs ↔ n ∈ cs ∧ n ∉ active.
Proof.
  revert active. induction cs as [|c cs IH]; intros active; simpl.
  - rewrite elem_of_nil. tauto.
  - destruct (decide (c ∈ active)) as [Hc|Hc].
    + rewrite IH, elem_of_cons. split; [tauto|]. intros [[->|?] ?]; tauto.
    + rewrite elem_of_cons, IH, elem_of_cons, elem_of_app, list_elem_of_singleton.
      split.
      * intros [->|[? ?]]; tauto.
      * intros [[->|?] ?]; [tauto|]. destruct (decide (n = c)); tauto.
Qed.

Lemma NoDup_newNotes (cs active : list Note) : NoDup (newNotes active cs).
Proof.
  revert active. induction cs as [|c cs IH]; intros active; simpl.
  - apply NoDup_nil_2.
  - destruct (decide (c ∈ active)); [apply IH|].
    apply NoDup_cons. split; [|apply IH].
    rewrite elem_of_newNotes, elem_of_app, list_elem_of_singleton. tauto.
Qed.

Lemma newNotes_nil (cs active : list Note) :
  (∀ n, n ∈ cs → n ∈ active) → newNotes active cs = [].
Proof.
  intros Hsub. destruct (newNotes active cs) as [|n l] eqn:E; [done|].
  assert (n ∈ newNotes active cs) as Hn by (rewrite E; left).
  apply elem_of_newNotes in Hn as [Hn1 Hn2]. destruct Hn2. auto.
Qed.

(** *** The first loop: switching notes on *)

Lemma candidateNotes_cons_true p ps thr :
  (thr <=? probability p)%float = true →
  cands (p :: ps) thr = frequencyToMidiNote (freq p) :: cands ps thr.
Proof. intros Hp. unfold candidateNotes. by rewrite filter_cons_True. Qed.

Lemma candidateNotes_cons_false p ps thr :
  (thr <=? probability p)%float = false →
  cands (p :: ps) thr = cands ps thr.
Proof.
  intros Hp. unfold candidateNotes. rewrite filter_cons_False; [done|].
  rewrite Hp. done.
Qed.

Lemma detect_fold (ps : list Pitch) thr (o : MIDIOutput) (dn active : list Note) sent :
  fold_left (detect_step frequencyToMidiNote thr) ps (dn, mk (Some o) active, sent)
  = (fold_left Set_add (cands ps thr) dn,
     mk (Some o) (active ++ newNotes active (cands ps thr)),
     sent ++ map (λ n, NoteOn n 100) (newNotes active (cands ps thr))).
Proof.
  revert dn active sent. induction ps as [|p ps IH]; intros dn active sent.
  - simpl. by rewrite !app_nil_r.
  - cbn [fold_left]. unfold detect_step at 2.
    destruct (thr <=? probability p)%float eqn:Hp.
    + rewrite (candidateNotes_cons_true _ _ _ Hp). cbn [fold_left newNotes].
      unfold sendNoteOn. cbn [midiOutput activeNotes].
      destruct (decide (frequencyToMidiNote (freq p) ∈ active)) as [Hin|Hin].
      * apply Set_has_true in Hin as Hh. rewrite Hh. cbn [negb].
        rewrite app_nil_r. apply IH.
      * apply Set_has_false in Hin as Hh. rewrite Hh. cbn [negb].
        unfold Set_add at 2. rewrite Hh. rewrite IH.
        by rewrite <- !app_assoc.
    + rewrite (candidateNotes_cons_false _ _ _ Hp). apply IH.
Qed.

Lemma elem_of_fold_Set_add (cs dn : list Note) n :
  n ∈ fold_left Set_add cs dn ↔ n ∈ dn ∨ n ∈ cs.
Proof.
  revert dn. induction cs as [|c cs IH]; intros dn; simpl.
  - rewrite elem_of_nil. tauto.
  - rewrite IH, elem_of_Set_add, elem_of_cons. tauto.
Qed.

(** *** The second loop: switching notes off *)

Lemma release_fold (dn l kept : list Note) (o : MIDIOutput) sent :
  NoDup (kept ++ l) →
  fold_left (release_step dn) l (mk (Some o) (kept ++ l), sent)
  = (mk (MIDIOutput:=MIDIOutput) (Some o) (kept ++ filter (λ a, a ∈ dn) l),
     sent ++ map NoteOff (filter (λ a, a ∉ dn) l)).
Proof.
  revert kept sent. induction l as [|a l IH]; intros kept sent Hnd.
  - simpl. by rewrite !app_nil_r.
  - cbn [fold_left]. unfold release_step at 2.
    destruct (decide (a ∈ dn)) as [Ha|Ha].
    + apply Set_has_true in Ha as Hh. rewrite Hh. cbn [negb].
      rewrite filter_cons_True, filter_cons_False by tauto.
      rewrite (cons_middle a kept l), (cons_middle a kept (filter _ l)), !app_assoc.
      apply IH. by rewrite <- app_assoc.
    + apply Set_has_false in Ha as Hh. rewrite Hh. cbn [negb].
      unfold sendNoteOff. cbn [midiOutput activeNotes].
      assert (Set_has (kept ++ a :: l) a = true) as ->.
      { apply Set_has_true. rewrite elem_of_app, elem_of_cons. tauto. }
      rewrite Set_delete_middle by done.
      rewrite filter_cons_False, filter_cons_True by tauto.
      rewrite IH.
      * cbn [map]. by rewrite <- app_assoc.
      * apply NoDup_app in Hnd as (H1 & H2 & H3). apply NoDup_cons in H3 as [H3 H4].
        apply NoDup_app. split_and!; [done| |done].
        intros x Hx Hxl. apply (H2 x Hx). by right.
Qed.

(** *** One call of [handleDetectedPitches], in closed form *)

Lemma filter_ext_elem (P Q : Note → Prop) `{∀ x, Decision (P x)} `{∀ x, Decision (Q x)}
  (l : list Note) :
  (∀ x, x ∈ l → (P x ↔ Q x)) → filter P l = filter Q l.
Proof.
  induction l as [|x l IH]; intros Hext; [done|].
  assert (P x ↔ Q x) as Hx by (apply Hext; left).
  assert (filter P l = filter Q l) as Hl by (apply IH; intros y Hy; apply Hext; by right).
  destruct (decide (P x)).
  - rewrite !filter_cons_True by tauto. by rewrite Hl.
  - rewrite !filter_cons_False by tauto. done.
Qed.

Lemma filter_all (P : Note → Prop) `{∀ x, Decision (P x)} (l : list Note) :
  (∀ x, x ∈ l → P x) → filter P l = l.
Proof.
  induction l as [|x l IH]; intros Hall; [done|].
  rewrite filter_cons_True by (apply Hall; left).
  rewrite IH; [done|]. intros y Hy. apply Hall. by right.
Qed.

Lemma filter_none (P : Note → Prop) `{∀ x, Decision (P x)} (l : list Note) :
  (∀ x, x ∈ l → ¬ P x) → filter P l = [].
Proof.
  induction l as [|x l IH]; intros Hall; [done|].
  rewrite filter_cons_False by (apply Hall; left).
  apply IH. intros y Hy. apply Hall. by right.
Qed.

Lemma handleDetectedPitches_closed_form ps thr (o : MIDIOutput) (active : list Note) :
  NoDup active →
  handle ps thr (mk (Some o) active)
  = (mk (Some o) (filter (λ a, a ∈ cands ps thr) active ++ newNotes active (cands ps thr)),
     map (λ n, NoteOn n 100) (newNotes active (cands ps thr))
     ++ map NoteOff (filter (λ a, a ∉ cands ps thr) active)).
Proof.
  intros Hnd. unfold handleDetectedPitches. rewrite detect_fold. cbn [activeNotes].
  set (cs := cands ps thr). set (news := newNotes active cs).
  set (dn := fold_left Set_add cs []).
  assert (∀ n, n ∈ dn ↔ n ∈ cs) as Hdn.
  { intros n. unfold dn. rewrite elem_of_fold_Set_add, elem_of_nil. tauto. }
  assert (NoDup (active ++ news)) as Hnd'.
  { apply NoDup_app. split_and!; [done| |apply NoDup_newNotes].
    intros x Hx Hx'. apply elem_of_newNotes in Hx'. tauto. }
  pose proof (release_fold dn (active ++ news) [] o
                (map (λ n, NoteOn n 100) news)) as Hrel.
  rewrite !app_nil_l in Hrel |- *. rewrite Hrel by done. clear Hrel.
  rewrite !filter_app.
  assert (filter (λ a, a ∈ dn) news = news) as ->.
  { apply filter_all. intros x Hx. apply Hdn. apply elem_of_newNotes in Hx. tauto. }
  assert (filter (λ a, a ∉ dn) news = []) as ->.
  { apply filter_none. intros x Hx Hx'. apply Hx'. apply Hdn.
    apply elem_of_newNotes in Hx. tauto. }
  rewrite app_nil_r.
  rewrite (filter_ext_elem (λ a, a ∈ dn) (λ a, a ∈ cs)) by (intros; apply Hdn).
  rewrite (filter_ext_elem (λ a, a ∉ dn) (λ a, a ∉ cs)); [done|].
  intros x _. by rewrite Hdn.
Qed.

(** *** Two calls of scenario A *)

Lemma handleDetectedPitches_single_on_empty (p : Pitch) thr (o : MIDIOutput) :
  (thr <=? probability p)%float = true →
  handle [p] thr (mk (Some o) [])
  = (mk (Some o) [frequencyToMidiNote (freq p)],
     [NoteOn (frequencyToMidiNote (freq p)) 100]).
Proof.
  intros Hp. rewrite handleDetectedPitches_closed_form by apply NoDup_nil_2.
  rewrite (candidateNotes_cons_true _ _ _ Hp). cbn.
  rewrite decide_False by apply not_elem_of_nil. done.
Qed.

Lemma handleDetectedPitches_none_on_single (n : Note) thr (o : MIDIOutput) :
  handle [] thr (mk (Some o) [n]) = (mk (Some o) [], [NoteOff n]).
Proof.
  rewrite handleDetectedPitches_closed_form by apply NoDup_singleton.
  change (cands [] thr) with (@nil Note).
  rewrite filter_none by (intros x _; apply not_elem_of_nil).
  rewrite (filter_all (λ a, a ∉ [])) by (intros x _; apply not_elem_of_nil).
  done.
Qed.

(** *** Without an output port *)

Lemma detect_fold_no_output (ps : list Pitch) thr (this : MIDIConverter.t Note MIDIOutput)
  (dn : list Note) sent :
  midiOutput this = None →
  fold_left (detect_step frequencyToMidiNote thr) ps (dn, this, sent)
  = (fold_left Set_add (cands ps thr) dn, this, sent).
Proof.
  intros Hno. revert dn. induction ps as [|p ps IH]; intros dn; [done|].
  cbn [fold_left]. unfold detect_step at 2.
  destruct (thr <=? probability p)%float eqn:Hp.
  - rewrite (candidateNotes_cons_true _ _ _ Hp). cbn [fold_left].
    unfold sendNoteOn. rewrite Hno, app_nil_r. apply IH.
  - rewrite (candidateNotes_cons_false _ _ _ Hp). apply IH.
Qed.

Lemma release_fold_no_output (dn l : list Note) (this : MIDIConverter.t Note MIDIOutput) sent :
  midiOutput this = None →
  fold_left (release_step dn) l (this, sent) = (this, sent).
Proof.
  intros Hno. induction l as [|a l IH]; [done|].
  cbn [fold_left]. unfold release_step at 2.
  destruct (negb (Set_has dn a)); [|apply IH].
  unfold sendNoteOff. rewrite Hno, app_nil_r. apply IH.
Qed.

(** *** Messages *)

Lemma NoteOn_inj (n m : Note) v w : NoteOn n v = NoteOn m w → n = m ∧ v = w.
Proof. unfold NoteOn. intros [= -> ->]. done. Qed.

Lemma NoteOff_inj (n m : Note) : NoteOff n = NoteOff m → n = m.
Proof. unfold NoteOff. intros [= ->]. done. Qed.

Lemma NoteOn_NoteOff (n m : Note) v : NoteOn n v ≠ NoteOff m.
Proof. unfold NoteOn, NoteOff. intros [= _ _]. Qed.

(** C1. With an output port, one call of [handleDetectedPitches] sends a
    Note On (velocity 100) for exactly the candidate notes that were not
    active and a Note Off for exactly the active notes that are not
    candidates, each once and nothing else, and leaves exactly the
    candidate notes (the notes of the pitches whose probability reaches
    the threshold) active.  In particular a single accepted pitch of note
    [n] on the empty set sends exactly [NoteOn n 100], and a following
    call without pitches sends exactly [NoteOff n]. *)
Theorem C1_update_is_exact_diff (ps : list Pitch) (thr : float) (o : MIDIOutput)
  (active : list Note) :
  NoDup active →
  let result := handle ps thr (mk (Some o) active) in
  let events := result.2 in
  let active' := activeNotes result.1 in
  (∀ n v, NoteOn n v ∈ events ↔ v = 100%Z ∧ n ∈ cands ps thr ∧ n ∉ active) ∧
  (∀ n, NoteOff n ∈ events ↔ n ∈ active ∧ n ∉ cands ps thr) ∧
  (∀ e, e ∈ events → (∃ n, e = NoteOn n 100) ∨ (∃ n, e = NoteOff n)) ∧
  NoDup events ∧
  (∀ n, n ∈ active' ↔ n ∈ cands ps thr) ∧
  NoDup active' ∧
  midiOutput result.1 = Some o ∧
  (∀ p thr1 thr2,
     (thr1 <=? probability p)%float = true →
     let n := frequencyToMidiNote (freq p) in
     handle [p] thr1 (mk (Some o) []) = (mk (Some o) [n], [NoteOn n 100]) ∧
     handle [] thr2 (mk (Some o) [n]) = (mk (Some o) [], [NoteOff n])).
Proof.
  intros Hnd. cbv zeta. rewrite handleDetectedPitches_closed_form by done.
  cbn [fst snd activeNotes midiOutput].
  set (cs := cands ps thr). set (news := newNotes active cs).
  split_and!.
  - intros n v. rewrite elem_of_app, !list_elem_of_fmap. split.
    + intros [(m & Hm & Hin)|(m & Hm & _)].
      * apply NoteOn_inj in Hm as [-> ->]. apply elem_of_newNotes in Hin. tauto.
      * by apply NoteOn_NoteOff in Hm.
    + intros (-> & Hn1 & Hn2). left. exists n. split; [done|].
      apply elem_of_newNotes. tauto.
  - intros n. rewrite elem_of_app, !list_elem_of_fmap. split.
    + intros [(m & Hm & _)|(m & Hm & Hin)].
      * symmetry in Hm. by apply NoteOn_NoteOff in Hm.
      * apply NoteOff_inj in Hm as ->. apply list_elem_of_filter in Hin. tauto.
    + intros [Hn1 Hn2]. right. exists n. split; [done|].
      apply list_elem_of_filter. tauto.
  - intros e. rewrite elem_of_app, !list_elem_of_fmap.
    intros [(m & -> & _)|(m & -> & _)]; [left|right]; by exists m.
  - apply NoDup_app. split_and!.
    + apply NoDup_fmap_2; [|apply NoDup_newNotes].
      intros x y Hxy. by apply NoteOn_inj in Hxy as [-> _].
    + intros e. rewrite !list_elem_of_fmap. intros (n & -> & _) (m & Hm & _).
      by apply NoteOn_NoteOff in Hm.
    + apply NoDup_fmap_2; [|by apply NoDup_filter].
      intros x y Hxy. by apply NoteOff_inj in Hxy.
  - intros n. rewrite elem_of_app, list_elem_of_filter. unfold news.
    rewrite elem_of_newNotes. destruct (decide (n ∈ active)); tauto.
  - apply NoDup_app. split_and!; [by apply NoDup_filter| |apply NoDup_newNotes].
    intros x Hx Hx'. apply list_elem_of_filter in Hx. apply elem_of_newNotes in Hx'. tauto.
  - done.
  - intros p thr1 thr2 Hp. split.
    + by apply handleDetectedPitches_single_on_empty.
    + apply handleDetectedPitches_none_on_single.
Qed.

(** C5. With an output port, a call of [handleDetectedPitches] that follows
    a call with the same set of candidate notes sends no message (and
    leaves the converter as it is), whatever the active set was before
    the first call. *)
Theorem C5_repeated_update_sends_nothing (ps1 ps2 : list Pitch) (thr1 thr2 : float)
  (o : MIDIOutput) (active : list Note) :
  NoDup active →
  (∀ n, n ∈ cands ps2 thr2 ↔ n ∈ cands ps1 thr1) →
  let this1 := (handle ps1 thr1 (mk (Some o) active)).1 in
  handle ps2 thr2 this1 = (this1, []).
Proof.
  intros Hnd Hsame. cbv zeta.
  rewrite (handleDetectedPitches_closed_form ps1) by done. cbn [fst].
  set (cs1 := cands ps1 thr1). set (news := newNotes active cs1).
  set (active1 := filter (λ a, a ∈ cs1) active ++ news).
  assert (∀ n, n ∈ active1 ↔ n ∈ cs1) as Hact.
  { intros n. unfold active1, news. rewrite elem_of_app, list_elem_of_filter, elem_of_newNotes.
    destruct (decide (n ∈ active)); tauto. }
  assert (NoDup active1) as Hnd1.
  { apply NoDup_app. split_and!; [by apply NoDup_filter| |apply NoDup_newNotes].
    intros x Hx Hx'. apply list_elem_of_filter in Hx. apply elem_of_newNotes in Hx'. tauto. }
  rewrite handleDetectedPitches_closed_form by done.
  rewrite newNotes_nil by (intros n Hn; apply Hact, Hsame, Hn).
  rewrite filter_all by (intros n Hn; apply Hsame, Hact, Hn).
  rewrite filter_none by (intros n Hn Hn'; apply Hn', Hsame, Hact, Hn).
  by rewrite app_nil_r.
Qed.

(** C10. Without an output port ([midiOutput] is null), [sendNoteOn],
    [sendNoteOff] and [handleDetectedPitches] send no message and leave the
    converter, and so its active notes, unchanged. *)
Theorem C10_no_output_no_effect (ps : list Pitch) (thr : float) (midiNote : Note)
  (velocity : Z) (this : MIDIConverter.t Note MIDIOutput) :
  midiOutput this = None →
  sendNoteOn midiNote velocity this = (this, []) ∧
  sendNoteOff midiNote this = (this, []) ∧
  handle ps thr this = (this, []).
Proof.
  intros Hno. split_and!.
  - unfold sendNoteOn. by rewrite Hno.
  - unfold sendNoteOff. by rewrite Hno.
  - unfold handleDetectedPitches. rewrite detect_fold_no_output by done.
    by apply release_fold_no_output.
Qed.

End Facts.

(** *** Instances *)

Import Samples.

(** C1 at an instance: notes 64 and 67 active, [sample_pitches] under the
    threshold 0.8. *)
Lemma C1_update_is_exact_diff_witness :
  NoDup [64%Z; 67%Z] ∧
  NoDup (handleDetectedPitches (MIDIOutput:=unit) sample_mapping sample_pitches
           0x1.999999999999ap-1 (mk (Some tt) [64%Z; 67%Z])).2.
Proof.
  assert (NoDup [64%Z; 67%Z]) as Hnd
    by (apply (bool_decide_unpack _); vm_compute; reflexivity).
  split; [exact Hnd|].
  exact (proj1 (proj2 (proj2 (proj2
    (C1_update_is_exact_diff (MIDIOutput:=unit) sample_mapping sample_pitches
       0x1.999999999999ap-1 tt [64%Z; 67%Z] Hnd))))).
Defined.

(** C5 at the same instance, the same pitches given twice. *)
Lemma C5_repeated_update_sends_nothing_witness :
  NoDup [64%Z; 67%Z] ∧
  handleDetectedPitches (MIDIOutput:=unit) sample_mapping sample_pitches 0x1.999999999999ap-1
    (handleDetectedPitches sample_mapping sample_pitches 0x1.999999999999ap-1
       (mk (Some tt) [64%Z; 67%Z])).1
  = ((handleDetectedPitches sample_mapping sample_pitches 0x1.999999999999ap-1
       (mk (Some tt) [64%Z; 67%Z])).1, []).
Proof.
  assert (NoDup [64%Z; 67%Z]) as Hnd
    by (apply (bool_decide_unpack _); vm_compute; reflexivity).
  split; [exact Hnd|].
  exact (C5_repeated_update_sends_nothing (MIDIOutput:=unit) sample_mapping
           sample_pitches sample_pitches _ _ tt [64%Z; 67%Z] Hnd (λ n, iff_refl _)).
Defined.

(** C10 at the same instance, without an output port. *)
Lemma C10_no_output_no_effect_witness :
  handleDetectedPitches (MIDIOutput:=unit) sample_mapping sample_pitches 0x1.999999999999ap-1
    (mk None [64%Z; 67%Z])
  = (mk None [64%Z; 67%Z], []).
Proof.
  exact (proj2 (proj2 (C10_no_output_no_effect (MIDIOutput:=unit) sample_mapping
    sample_pitches 0x1.999999999999ap-1 60%Z 100%Z (mk None [64%Z; 67%Z]) eq_refl))).
Defined.

(** Scenario A of the specification on the sample mapping: a pitch of
    note 60 on the empty set, the same again, then no pitch. *)
Example sample_scenario_A :
  let pitch := mkPitch 0x1.05a147ae147aep+8 1 in
  let this0 := mk (MIDIOutput:=unit) (Some tt) [] in
  let '(this1, events1) := handleDetectedPitches sample_mapping [pitch] 0x1.999999999999ap-1 this0 in
  let '(this2, events2) := handleDetectedPitches sample_mapping [pitch] 0x1.999999999999ap-1 this1 in
  let '(this3, events3) := handleDetectedPitches sample_mapping [] 0x1.999999999999ap-1 this2 in
  events1 = [NoteOn 60%Z 100] ∧ events2 = [] ∧ events3 = [NoteOff 60%Z] ∧
  activeNotes this1 = [60%Z] ∧ activeNotes this2 = [60%Z] ∧ activeNotes this3 = [].
Proof. vm_compute. repeat split; reflexivity. Qed.

(** Scenario B of the specification on the sample mapping: with
    [{64, 67}] active, pitches of notes 60 and 64 switch 60 on and 67
    off and leave 64 alone. *)
Example sample_update :
  handleDetectedPitches (MIDIOutput:=unit) sample_mapping sample_pitches
    0x1.999999999999ap-1 (mk (Some tt) [64%Z; 67%Z])
  = (mk (Some tt) [64%Z; 60%Z], [NoteOn 60%Z 100; NoteOff 67%Z]).
Proof. vm_compute. reflexivity. Qed.

End TrackerFacts.

(* ===================================================================== *)
(** * Part III: the note mapper                                           *)
(* ===================================================================== *)

(** ** Rounding to binary64, on integers *)

Module Rounding.
Import Real64.
Local Open Scope Z_scope.

Lemma digits2_pos_bounds (m : positive) :
  2 ^ (Zpos (digits2_pos m) - 1) <= Zpos m < 2 ^ Zpos (digits2_pos m).
Proof.
  induction m as [m IH|m IH|]; cbn [digits2_pos].
  - rewrite Pos2Z.inj_succ. replace (Z.succ (Zpos (digits2_pos m)) - 1) with (Zpos (digits2_pos m) - 1 + 1) by lia.
    rewrite Z.pow_succ_r by lia. rewrite Z.pow_add_r by lia. lia.
  - rewrite Pos2Z.inj_succ. replace (Z.succ (Zpos (digits2_pos m)) - 1) with (Zpos (digits2_pos m) - 1 + 1) by lia.
    rewrite Z.pow_succ_r by lia. rewrite Z.pow_add_r by lia. lia.
  - cbn. lia.
Qed.

Lemma Zdigits2_bounds (m : Z) :
  0 < m -> 2 ^ (Zdigits2 m - 1) <= m < 2 ^ Zdigits2 m.
Proof. destruct m as [|p|p]; [lia| |lia]. intros _. apply digits2_pos_bounds. Qed.

Lemma Zdigits2_nonneg (m : Z) : 0 <= Zdigits2 m.
Proof. destruct m; cbn; lia. Qed.

Lemma Zdigits2_unique (m d : Z) : 0 < m -> 2 ^ (d - 1) <= m < 2 ^ d -> Zdigits2 m = d.
Proof.
  intros Hm [H1 H2]. pose proof (Zdigits2_bounds m Hm) as [H3 H4].
  pose proof (Zdigits2_nonneg m) as H0.
  assert (0 < d) as Hd.
  { destruct (Z_lt_le_dec 0 d); [done|]. exfalso.
    assert (2 ^ d <= 1). { destruct (Z.eq_dec d 0) as [->|]; [cbn; lia|]. rewrite Z.pow_neg_r by lia. lia. }
    lia. }
  assert (0 < Zdigits2 m) as Hd'. { destruct m; cbn in *; lia. }
  destruct (Z.lt_trichotomy (Zdigits2 m) d) as [Hlt|[Heq|Hgt]]; [|done|].
  - exfalso. assert (2 ^ Zdigits2 m <= 2 ^ (d - 1)) by (apply Z.pow_le_mono_r; lia). lia.
  - exfalso. assert (2 ^ d <= 2 ^ (Zdigits2 m - 1)) by (apply Z.pow_le_mono_r; lia). lia.
Qed.

(** [shr_1] halves the mantissa. *)
Lemma shr_m_shr_1 (r : shr_record) : 0 <= shr_m r -> shr_m (shr_1 r) = shr_m r / 2.
Proof.
  destruct r as [m r s]. cbn [shr_m]. intros Hm. unfold shr_1.
  destruct m as [|[p|p|]|p]; cbn [shr_m]; try lia; try reflexivity.
  - rewrite (Pos2Z.inj_xI p). apply Z.div_unique with 1; lia.
  - rewrite (Pos2Z.inj_xO p). apply Z.div_unique with 0; lia.
Qed.

Lemma shr_m_iter (p : positive) (r : shr_record) :
  0 <= shr_m r -> shr_m (SpecFloat.iter_pos shr_1 p r) = shr_m r / 2 ^ Zpos p.
Proof.
  revert r. induction p as [p IH|p IH|]; intros r Hr; cbn [SpecFloat.iter_pos].
  - assert (0 <= shr_m (shr_1 r)) as H1 by (rewrite shr_m_shr_1 by done; apply Z.div_pos; lia).
    assert (0 <= shr_m (SpecFloat.iter_pos shr_1 p (shr_1 r))) as H2
      by (rewrite IH by done; apply Z.div_pos; [done|apply Z.pow_pos_nonneg; lia]).
    assert (2 ^ Zpos p~1 = 2 * 2 ^ Zpos p * 2 ^ Zpos p) as ->.
    { rewrite (Pos2Z.inj_xI p). replace (2 * Zpos p + 1) with (1 + Zpos p + Zpos p) by lia.
      rewrite !Z.pow_add_r by lia. lia. }
    rewrite IH by done. rewrite IH by done. rewrite shr_m_shr_1 by done.
    rewrite !Z.div_div by (try apply Z.pow_pos_nonneg; lia). f_equal; lia.
  - assert (0 <= shr_m (SpecFloat.iter_pos shr_1 p r)) as H2
      by (rewrite IH by done; apply Z.div_pos; [done|apply Z.pow_pos_nonneg; lia]).
    assert (2 ^ Zpos p~0 = 2 ^ Zpos p * 2 ^ Zpos p) as ->.
    { rewrite (Pos2Z.inj_xO p). replace (2 * Zpos p) with (Zpos p + Zpos p) by lia.
      rewrite !Z.pow_add_r by lia. lia. }
    rewrite IH by done. rewrite IH by done.
    rewrite !Z.div_div by (try apply Z.pow_pos_nonneg; lia). f_equal; lia.
  - rewrite shr_m_shr_1 by done. reflexivity.
Qed.

Lemma round_nearest_even_range (m : Z) (l : location) :
  m <= round_nearest_even m l <= m + 1.
Proof.
  destruct l as [|[| |]]; cbn [round_nearest_even]; try lia.
  destruct (Z.even m); lia.
Qed.

Lemma shr_m_record_of_loc (m : Z) (l : location) : shr_m (shr_record_of_loc m l) = m.
Proof. by destruct l as [|[| |]]. Qed.


Lemma shr_fexp_spec (prec emax m e : Z) (l : location) :
  0 <= m ->
  shr_m (shr_fexp prec emax m e l).1 = m / 2 ^ dropped prec emax m e ∧
  (shr_fexp prec emax m e l).2 = e + dropped prec emax m e.
Proof.
  intros Hm. unfold shr_fexp, shr, dropped.
  destruct (fexp prec emax (Zdigits2 m + e) - e) as [|p|p] eqn:E; cbn [fst snd].
  - rewrite shr_m_record_of_loc. replace (Z.max 0 0) with 0 by lia. rewrite Z.pow_0_r, Z.div_1_r. split; [done|lia].
  - rewrite shr_m_iter by (by rewrite shr_m_record_of_loc). rewrite shr_m_record_of_loc.
    replace (Z.max 0 (Zpos p)) with (Zpos p) by lia. done.
  - rewrite shr_m_record_of_loc. replace (Z.max 0 (Zneg p)) with 0 by lia.
    rewrite Z.pow_0_r, Z.div_1_r. split; [done|lia].
Qed.


Lemma shr_fexp_none (prec emax m e : Z) (l : location) :
  dropped prec emax m e = 0 -> (shr_fexp prec emax m e l).1 = shr_record_of_loc m l.
Proof.
  unfold shr_fexp, shr, dropped. intros Hk.
  destruct (fexp prec emax (Zdigits2 m + e) - e) as [|p|p]; [done|lia|done].
Qed.

Lemma fexp64 (e : Z) : fexp prec emax e = Z.max (e - 53) (-1074).
Proof. reflexivity. Qed.

Lemma dropped64 (m e : Z) :
  dropped prec emax m e = Z.max 0 (Z.max (Zdigits2 m - 53) (-1074 - e)).
Proof. unfold dropped. rewrite fexp64. lia. Qed.

(** What [binary_round_aux] returns for a mantissa [mx >= 0] at exponent
    [ex]: with [k] the number of bits dropped and [t = mx / 2^k], the
    result is [m1 * 2^(ex + k)] for [m1] one of [t] and [t + 1], unless
    that overflows. *)
Lemma binary_round_aux_spec (s : bool) (mx ex : Z) (lx : location) :
  0 <= mx ->
  ∃ m1 : Z,
    mx / 2 ^ dropped prec emax mx ex <= m1 <= mx / 2 ^ dropped prec emax mx ex + 1 ∧
    (lx = loc_Exact -> dropped prec emax mx ex = 0 -> m1 = mx) ∧
    match binary_round_aux prec emax s mx ex lx with
    | S754_zero s' => s' = s ∧ m1 = 0
    | S754_finite s' m e =>
        s' = s ∧ ex + dropped prec emax mx ex <= e ∧
        Zpos m * 2 ^ (e - (ex + dropped prec emax mx ex)) = m1
    | S754_infinity s' => s' = s ∧ 970 < ex + dropped prec emax mx ex
    | S754_nan => False
    end.
Proof.
  intros Hmx. set (k := dropped prec emax mx ex).
  assert (0 <= k) as Hk0 by (unfold k, dropped; lia).
  assert (0 < 2 ^ k) as Hpk by (apply Z.pow_pos_nonneg; lia).
  destruct (shr_fexp_spec prec emax mx ex lx Hmx) as [Ht He']. fold k in Ht, He'.
  unfold binary_round_aux.
  destruct (shr_fexp prec emax mx ex lx) as [mrs' e'] eqn:E1. cbn [fst snd] in Ht, He'.
  set (m1 := round_nearest_even (shr_m mrs') (loc_of_shr_record mrs')).
  pose proof (round_nearest_even_range (shr_m mrs') (loc_of_shr_record mrs')) as Hm1.
  fold m1 in Hm1. rewrite Ht in Hm1.
  assert (0 <= mx / 2 ^ k) as Ht0 by (apply Z.div_pos; lia).
  assert (mx / 2 ^ k < 2 ^ 53) as Ht53.
  { destruct (Z.eq_dec mx 0) as [->|Hne]; [rewrite Z.div_0_l by lia; lia|].
    pose proof (Zdigits2_bounds mx ltac:(lia)) as [_ Hd].
    pose proof (Zdigits2_nonneg mx) as Hd0.
    apply Z.div_lt_upper_bound; [done|].
    assert (Zdigits2 mx <= k + 53) as Hdk by (unfold k; rewrite dropped64; lia).
    assert (2 ^ Zdigits2 mx <= 2 ^ (k + 53)) by (apply Z.pow_le_mono_r; lia).
    rewrite Z.pow_add_r in * by lia. lia. }
  assert (-1074 <= e') as He'min by (rewrite He'; unfold k; rewrite dropped64; lia).
  exists m1. split; [done|]. split.
  { intros -> Hk. unfold m1. fold k in Hk.
    pose proof (shr_fexp_none prec emax mx ex loc_Exact Hk) as Hnone.
    rewrite E1 in Hnone. cbn [fst] in Hnone. rewrite Hnone. reflexivity. }
  assert (0 <= m1) as Hm10 by lia.
  destruct (shr_fexp_spec prec emax m1 e' loc_Exact Hm10) as [Ht2 He''].
  destruct (shr_fexp prec emax m1 e' loc_Exact) as [mrs'' e''] eqn:E2. cbn [fst snd] in Ht2, He''.
  assert (dropped prec emax m1 e' = 0 ∨ (dropped prec emax m1 e' = 1 ∧ m1 = 2 ^ 53)) as Hk2.
  { rewrite dropped64.
    destruct (Z.eq_dec m1 0) as [->|Hne]; [left; cbn; lia|].
    pose proof (Zdigits2_bounds m1 ltac:(lia)) as [Hd1 Hd2].
    destruct (Z_lt_le_dec m1 (2 ^ 53)) as [Hlt|Hge].
    - left. assert (Zdigits2 m1 <= 53); [|lia].
      destruct (Z_lt_le_dec 53 (Zdigits2 m1)) as [Hgt|]; [|done]. exfalso.
      assert (2 ^ 53 <= 2 ^ (Zdigits2 m1 - 1)) by (apply Z.pow_le_mono_r; lia). lia.
    - right. assert (m1 = 2 ^ 53) as Heq by lia. split; [|done].
      rewrite Heq. replace (Zdigits2 (2 ^ 53)) with 54 by reflexivity. lia. }
  rewrite Ht2. rewrite He'' in *. rewrite He' in *.
  destruct Hk2 as [Hk2|[Hk2 Hm1eq]]; rewrite Hk2 in *.
  - rewrite Z.pow_0_r, Z.div_1_r. destruct m1 as [|p|p]; [done| |lia].
    destruct (_ <=? _) eqn:Ele.
    + split_and!; [done|lia|]. replace (ex + k + 0 - (ex + k)) with 0 by lia. lia.
    + apply Z.leb_gt in Ele. change (emax - prec) with 971 in Ele. split; [done|lia].
  - rewrite Hm1eq. change (2 ^ 53 / 2 ^ 1) with (Zpos (2 ^ 52)).
    cbv iota. destruct (_ <=? _) eqn:Ele.
    + split_and!; [done|lia|]. replace (ex + k + 1 - (ex + k)) with 1 by lia. reflexivity.
    + apply Z.leb_gt in Ele. change (emax - prec) with 971 in Ele. split; [done|lia].
Qed.

End Rounding.

(** ** The error of the binary64 operations *)

Module Real64Facts.
Import Real64 Rounding.
Local Open Scope R_scope.

Lemma Rabs_le_inv (x a : R) : Rabs x <= a -> - a <= x <= a.
Proof. unfold Rabs. destruct (Rcase_abs x); lra. Qed.

Lemma pow2_pos (n : Z) : (0 <= n)%Z -> 0 < IZR (2 ^ n).
Proof. intros Hn. apply IZR_lt. apply Z.pow_pos_nonneg; lia. Qed.

Lemma bpow_pos (e : Z) : 0 < bpow e.
Proof.
  unfold bpow. destruct (0 <=? e)%Z eqn:E.
  - apply pow2_pos. lia.
  - apply Rinv_0_lt_compat, pow2_pos. lia.
Qed.

Lemma bpow_nonneg_exp (e : Z) : (0 <= e)%Z -> bpow e = IZR (2 ^ e).
Proof. intros He. unfold bpow. by rewrite (proj2 (Z.leb_le 0 e) He). Qed.

Lemma bpow_opp (e : Z) : bpow (- e) = / bpow e.
Proof.
  unfold bpow. destruct (Z.lt_trichotomy e 0) as [H|[->|H]].
  - replace (0 <=? - e)%Z with true by (symmetry; apply Z.leb_le; lia).
    replace (0 <=? e)%Z with false by (symmetry; apply Z.leb_gt; lia).
    rewrite Rinv_inv. done.
  - change (1 = / 1). by rewrite Rinv_1.
  - replace (0 <=? - e)%Z with false by (symmetry; apply Z.leb_gt; lia).
    replace (0 <=? e)%Z with true by (symmetry; apply Z.leb_le; lia).
    by rewrite Z.opp_involutive.
Qed.

Lemma bpow_add_nonneg (a b : Z) : (0 <= a)%Z -> (0 <= b)%Z -> bpow (a + b) = bpow a * bpow b.
Proof.
  intros Ha Hb. rewrite !bpow_nonneg_exp by lia. by rewrite Z.pow_add_r, mult_IZR by lia.
Qed.

Lemma bpow_opp' (e : Z) : bpow e = / bpow (- e).
Proof. by rewrite bpow_opp, Rinv_inv. Qed.

Lemma bpow_add (a b : Z) : bpow (a + b) = bpow a * bpow b.
Proof.
  assert (∀ a b, (0 <= a)%Z -> (b < 0)%Z -> bpow (a + b) = bpow a * bpow b) as Hmix.
  { intros a' b' Ha Hb.
    pose proof (bpow_pos a') as Hpa. pose proof (bpow_pos (- b')) as Hpb.
    rewrite (bpow_opp' b').
    destruct (Z_lt_le_dec (a' + b') 0) as [Hs|Hs].
    - rewrite (bpow_opp' (a' + b')).
      assert (bpow (- b') = bpow a' * bpow (- (a' + b'))) as Hc.
      { rewrite <- bpow_add_nonneg by lia. f_equal. lia. }
      pose proof (bpow_pos (- (a' + b'))). rewrite Hc. field. lra.
    - assert (bpow a' = bpow (a' + b') * bpow (- b')) as Hc.
      { rewrite <- bpow_add_nonneg by lia. f_equal. lia. }
      rewrite Hc. field. lra. }
  destruct (Z_lt_le_dec a 0) as [Ha|Ha], (Z_lt_le_dec b 0) as [Hb|Hb].
  - rewrite (bpow_opp' (a + b)), (bpow_opp' a), (bpow_opp' b).
    replace (- (a + b))%Z with (- a + - b)%Z by lia.
    rewrite bpow_add_nonneg by lia.
    pose proof (bpow_pos (- a)). pose proof (bpow_pos (- b)). field. lra.
  - rewrite Z.add_comm, Rmult_comm. by apply Hmix.
  - by apply Hmix.
  - by apply bpow_add_nonneg.
Qed.

Lemma bpow_le (a b : Z) : (a <= b)%Z -> bpow a <= bpow b.
Proof.
  intros Hab. replace b with (a + (b - a))%Z by lia. rewrite bpow_add.
  rewrite (bpow_nonneg_exp (b - a)) by lia.
  assert (1 <= IZR (2 ^ (b - a))).
  { apply IZR_le. assert (0 < 2 ^ (b - a))%Z by (apply Z.pow_pos_nonneg; lia). lia. }
  pose proof (bpow_pos a). nra.
Qed.

Lemma bpow_lt (a b : Z) : (a < b)%Z -> bpow a < bpow b.
Proof.
  intros Hab. replace b with (a + (b - a))%Z by lia. rewrite bpow_add.
  rewrite (bpow_nonneg_exp (b - a)) by lia.
  assert (2 <= IZR (2 ^ (b - a))).
  { apply IZR_le. replace (b - a)%Z with (1 + (b - a - 1))%Z by lia.
    rewrite Z.pow_add_r by lia.
    assert (0 < 2 ^ (b - a - 1))%Z by (apply Z.pow_pos_nonneg; lia). lia. }
  pose proof (bpow_pos a). nra.
Qed.

Lemma bpow_le_inv (a b : Z) : bpow a <= bpow b -> (a <= b)%Z.
Proof.
  intros H. destruct (Z_lt_le_dec b a) as [Hlt|]; [|done].
  apply bpow_lt in Hlt. lra.
Qed.

Lemma bpow_lt_inv (a b : Z) : bpow a < bpow b -> (a < b)%Z.
Proof.
  intros H. destruct (Z_lt_le_dec a b) as [|Hle]; [done|].
  apply bpow_le in Hle. lra.
Qed.



Lemma SF2R_cond (s : bool) (m : positive) (e : Z) :
  SF2R (S754_finite s m e) = (if s then - (IZR (Zpos m) * bpow e) else IZR (Zpos m) * bpow e).
Proof. destruct s; cbn [SF2R cond_Zopp]; [|done]. rewrite opp_IZR. lra. Qed.

(** The value [binary_round_aux] returns lies within [2^(ex + k)] of every
    real number [X] in the interval its arguments stand for. *)
Lemma round_aux_error (s : bool) (mx ex : Z) (lx : location) (X : R) :
  (0 <= mx)%Z ->
  IZR mx * bpow ex <= X <= IZR (mx + 1) * bpow ex ->
  (lx = loc_Exact -> X = IZR mx * bpow ex) ->
  (ex + dropped prec emax mx ex <= 970)%Z ->
  ∃ V : R,
    0 <= V ∧
    Rabs (V - X) <= bpow (ex + dropped prec emax mx ex) ∧
    (lx = loc_Exact -> dropped prec emax mx ex = 0%Z -> V = X) ∧
    SF_finite (binary_round_aux prec emax s mx ex lx) ∧
    SF2R (binary_round_aux prec emax s mx ex lx) = (if s then - V else V).
Proof.
  intros Hmx HX Hex Hov.
  destruct (binary_round_aux_spec s mx ex lx Hmx) as (m1 & Hm1 & Hm1ex & Hres).
  set (k := dropped prec emax mx ex) in *.
  assert (0 <= k)%Z as Hk0 by (unfold k, dropped; lia).
  assert (0 < 2 ^ k)%Z as Hpk by (apply Z.pow_pos_nonneg; lia).
  set (t := (mx / 2 ^ k)%Z) in *.
  assert (t * 2 ^ k <= mx)%Z as Ht1 by (unfold t; rewrite Z.mul_comm; apply Z.mul_div_le; lia).
  assert (mx + 1 <= (t + 1) * 2 ^ k)%Z as Ht2.
  { unfold t. pose proof (Z.mul_succ_div_gt mx (2 ^ k) Hpk). lia. }
  assert (0 <= t)%Z as Ht0 by (apply Z.div_pos; lia).
  pose proof (bpow_pos ex) as Hbe. pose proof (bpow_pos (ex + k)) as Hbek.
  assert (bpow (ex + k) = bpow ex * IZR (2 ^ k)) as Hsplit
    by (by rewrite bpow_add, (bpow_nonneg_exp k)).
  apply IZR_le in Ht1, Ht2. rewrite mult_IZR in Ht1, Ht2.
  assert (IZR t * bpow (ex + k) <= X <= IZR (t + 1) * bpow (ex + k)) as HXt.
  { rewrite Hsplit. destruct HX as [HX1 HX2]. split; nra. }
  exists (IZR m1 * bpow (ex + k)).
  assert (IZR t <= IZR m1 <= IZR (t + 1)) as Hm1R by (split; apply IZR_le; lia).
  assert (0 <= IZR m1) as Hm1p by (apply IZR_le; lia).
  split_and!.
  - nra.
  - rewrite plus_IZR in *. apply Rabs_le. split; nra.
  - intros Hl Hk. rewrite Hex by done. rewrite (Hm1ex Hl Hk). by rewrite Hk, Z.add_0_r.
  - destruct (binary_round_aux prec emax s mx ex lx); cbn; try done.
    destruct Hres as [_ Hres]. lia.
  - destruct (binary_round_aux prec emax s mx ex lx) as [s'|s'| |s' m e].
    + destruct Hres as [-> ->]. cbn [SF2R]. destruct s; lra.
    + destruct Hres as [_ Hres]. lia.
    + done.
    + destruct Hres as (-> & He & Hm). rewrite SF2R_cond.
      assert (IZR (Zpos m) * bpow e = IZR m1 * bpow (ex + k)) as ->; [|done].
      rewrite <- Hm, mult_IZR. replace e with ((e - (ex + k)) + (ex + k))%Z at 1 by lia.
      rewrite bpow_add, (bpow_nonneg_exp (e - (ex + k))) by lia. lra.
Qed.

(** The dropped bits are worth at most [2^-52] of the value, or
    [2^-1074]. *)
Lemma bpow_dropped (mx ex : Z) :
  (0 < mx)%Z -> (0 < dropped prec emax mx ex)%Z ->
  bpow (ex + dropped prec emax mx ex) <= IZR mx * bpow ex * bpow (-52) + bpow (-1074).
Proof.
  intros Hmx Hk. rewrite dropped64 in *.
  pose proof (Zdigits2_bounds mx Hmx) as [Hd _].
  pose proof (bpow_pos (-1074)). pose proof (bpow_pos ex). pose proof (bpow_pos (-52)).
  assert (0 < IZR mx) by (by apply IZR_lt).
  assert (0 < IZR mx * bpow ex * bpow (-52)) by (repeat apply Rmult_lt_0_compat; done).
  destruct (Z_le_gt_dec (Zdigits2 mx - 53) (-1074 - ex)) as [Hc|Hc].
  - replace (ex + Z.max 0 (Z.max (Zdigits2 mx - 53) (-1074 - ex)))%Z with (-1074)%Z by lia. lra.
  - replace (ex + Z.max 0 (Z.max (Zdigits2 mx - 53) (-1074 - ex)))%Z
      with ((Zdigits2 mx - 1) + ex + -52)%Z by lia.
    rewrite !bpow_add. rewrite (bpow_nonneg_exp (Zdigits2 mx - 1)) by lia.
    apply IZR_le in Hd. nra.
Qed.

Lemma no_overflow (mx ex : Z) :
  (0 < mx)%Z -> (ex <= 970)%Z -> IZR mx * bpow ex <= bpow 1000 ->
  (ex + dropped prec emax mx ex <= 970)%Z.
Proof.
  intros Hmx Hex HX. rewrite dropped64.
  pose proof (Zdigits2_bounds mx Hmx) as [Hd _].
  pose proof (Zdigits2_nonneg mx).
  assert (Zdigits2 mx - 1 + ex <= 1000)%Z; [|lia].
  apply bpow_le_inv. rewrite bpow_add, (bpow_nonneg_exp (Zdigits2 mx - 1)) by (destruct mx; cbn in *; lia).
  apply IZR_le in Hd. pose proof (bpow_pos ex). nra.
Qed.

(** Rounding an exact value: the relative error is at most [2^-52], or the
    absolute error [2^-1074]. *)
Lemma round_exact_error (s : bool) (mx ex : Z) :
  (0 < mx)%Z -> (ex <= 970)%Z -> IZR mx * bpow ex <= bpow 1000 ->
  ∃ V : R,
    0 <= V ∧
    Rabs (V - IZR mx * bpow ex) <= IZR mx * bpow ex * bpow (-52) + bpow (-1074) ∧
    SF_finite (binary_round_aux prec emax s mx ex loc_Exact) ∧
    SF2R (binary_round_aux prec emax s mx ex loc_Exact) = (if s then - V else V).
Proof.
  intros Hmx Hex HX.
  pose proof (bpow_pos ex) as Hbe.
  destruct (round_aux_error s mx ex loc_Exact (IZR mx * bpow ex)) as (V & HV0 & Herr & Hexact & Hfin & Hval).
  - lia.
  - rewrite plus_IZR. split; nra.
  - done.
  - by apply no_overflow.
  - exists V. split_and!; try done.
    pose proof (bpow_pos (-1074)). pose proof (bpow_pos (-52)).
    assert (0 < IZR mx) by (by apply IZR_lt).
    assert (0 < IZR mx * bpow ex * bpow (-52)) by (repeat apply Rmult_lt_0_compat; done).
    destruct (Z.eq_dec (dropped prec emax mx ex) 0%Z) as [Hk|Hk].
    + rewrite (Hexact eq_refl Hk). rewrite Rminus_diag, Rabs_R0. lra.
    + etrans; [exact Herr|]. apply bpow_dropped; [done|]. unfold dropped in *. lia.
Qed.


(** *** Binary64 values *)

Lemma bounded_spec (m : positive) (e : Z) :
  bounded prec emax m e = true ->
  (Zpos (digits2_pos m) <= 53 ∧ -1074 <= e <= 971 ∧
   (Zpos (digits2_pos m) = 53 ∨ e = -1074))%Z.
Proof.
  unfold bounded, canonical_mantissa. rewrite fexp64. intros H.
  apply andb_true_iff in H as [H1 H2]. apply Z.eqb_eq in H1. apply Z.leb_le in H2.
  change (emax - prec)%Z with 971%Z in H2. lia.
Qed.

Lemma Prim2SF_bounded (x : float) (s : bool) (m : positive) (e : Z) :
  Prim2SF x = S754_finite s m e -> bounded prec emax m e = true.
Proof. intros H. pose proof (Prim2SF_valid x) as Hv. by rewrite H in Hv. Qed.

Lemma is_finite_SF (x : float) : is_finite x = true <-> SF_finite (Prim2SF x).
Proof. unfold is_finite, SF_finite. destruct (Prim2SF x); split; done. Qed.

Lemma finite_value_bounds (s : bool) (m : positive) (e : Z) :
  bounded prec emax m e = true ->
  bpow e <= IZR (Zpos m) * bpow e ∧
  ((Zpos (digits2_pos m) = 53)%Z -> bpow (e + 52) <= IZR (Zpos m) * bpow e).
Proof.
  intros Hb. pose proof (bpow_pos e). pose proof (digits2_pos_bounds m) as [Hd _].
  assert (1 <= IZR (Zpos m)) by (apply IZR_le; lia). split; [nra|].
  intros H53. rewrite H53 in Hd. apply IZR_le in Hd.
  rewrite Z.add_comm, bpow_add, (bpow_nonneg_exp 52) by lia. change (53 - 1)%Z with 52%Z in Hd. nra.
Qed.

(** *** Multiplication *)

Lemma SFmul_error (x y : spec_float) :
  valid_binary x = true -> valid_binary y = true ->
  SF_finite x -> SF_finite y ->
  Rabs (SF2R x * SF2R y) <= bpow 1000 ->
  SF_finite (SF64mul x y) ∧
  Rabs (SF2R (SF64mul x y) - SF2R x * SF2R y)
  <= Rabs (SF2R x * SF2R y) * bpow (-52) + bpow (-1074).
Proof.
  intros Hvx Hvy Hfx Hfy Hmag.
  pose proof (bpow_pos (-1074)). pose proof (bpow_pos (-52)).
  destruct x as [sx|sx| |sx mx ex]; try done; destruct y as [sy|sy| |sy my ey]; try done;
    unfold SF64mul; cbn [SFmul SF_finite];
    try (split; [done|]; cbn [SF2R]; rewrite ?Rmult_0_l, ?Rmult_0_r, Rminus_diag, Rabs_R0; lra).
  cbn [valid_binary] in Hvx, Hvy.
  pose proof (bounded_spec _ _ Hvx) as (Hdx & Hex & Hnx).
  pose proof (bounded_spec _ _ Hvy) as (Hdy & Hey & Hny).
  pose proof (finite_value_bounds sx _ _ Hvx) as [Hx1 Hx52].
  pose proof (finite_value_bounds sy _ _ Hvy) as [Hy1 Hy52].
  pose proof (bpow_pos ex). pose proof (bpow_pos ey).
  set (X := IZR (Zpos (mx * my)) * bpow (ex + ey)).
  assert (X = (IZR (Zpos mx) * bpow ex) * (IZR (Zpos my) * bpow ey)) as HX.
  { unfold X. rewrite Pos2Z.inj_mul, mult_IZR, bpow_add. lra. }
  assert (0 < X) as HXpos.
  { rewrite HX. apply Rmult_lt_0_compat; lra. }
  assert (SF2R (S754_finite sx mx ex) * SF2R (S754_finite sy my ey)
          = (if xorb sx sy then - X else X)) as Hprod.
  { rewrite !SF2R_cond, HX. destruct sx, sy; cbn [xorb]; lra. }
  rewrite Hprod in *.
  assert (Rabs (if xorb sx sy then - X else X) = X) as Habs.
  { destruct (xorb sx sy); cbv iota; [rewrite Rabs_Ropp|]; apply Rabs_pos_eq; lra. }
  rewrite Habs in *.
  assert (ex + ey <= 970)%Z as Hsum.
  { destruct Hnx as [Hnx|Hnx]; [|lia]. destruct Hny as [Hny|Hny]; [|lia].
    specialize (Hx52 Hnx). specialize (Hy52 Hny).
    assert (bpow (ex + 52 + (ey + 52)) <= bpow 1000).
    { rewrite bpow_add. pose proof (bpow_pos (ex + 52)). pose proof (bpow_pos (ey + 52)). nra. }
    apply bpow_le_inv in H3. lia. }
  destruct (round_exact_error (xorb sx sy) (Zpos (mx * my)) (ex + ey))
    as (V & HV0 & Herr & Hfin & Hval); [lia|done|done|].
  fold X in Herr. split; [done|]. rewrite Hval.
  destruct (xorb sx sy); cbv iota.
  - replace (- V - - X) with (- (V - X)) by lra. by rewrite Rabs_Ropp.
  - done.
Qed.

Lemma mul_error (x y : float) :
  is_finite x = true -> is_finite y = true ->
  Rabs (to_R x * to_R y) <= bpow 1000 ->
  is_finite (x * y) = true ∧
  Rabs (to_R (x * y) - to_R x * to_R y) <= Rabs (to_R x * to_R y) * bpow (-52) + bpow (-1074).
Proof.
  intros Hx Hy Hmag. rewrite is_finite_SF in *. unfold to_R in *. rewrite mul_spec.
  apply SFmul_error; try done; apply Prim2SF_valid.
Qed.


(** *** Addition *)

Lemma shl_align_spec (m : positive) (e e' : Z) :
  (shl_align m e e').2 = Z.min e e' ∧
  Zpos (shl_align m e e').1 = (Zpos m * 2 ^ (e - Z.min e e'))%Z.
Proof.
  unfold shl_align. destruct (e' - e)%Z as [|d|d] eqn:E; cbn [fst snd].
  - replace (Z.min e e') with e by lia. rewrite Z.sub_diag. split; lia.
  - replace (Z.min e e') with e by lia. rewrite Z.sub_diag. split; lia.
  - replace (Z.min e e') with e' by lia. split; [done|].
    change (Pos.iter xO m d) with (Zpower.shift_pos d m).
    rewrite Zpower.shift_pos_correct. replace (e - e')%Z with (Zpos d) by lia.
    rewrite Zpower.Zpower_pos_nat, Zpower.Zpower_nat_Z, positive_nat_Z. lia.
Qed.

Lemma shl_align_value (m : positive) (e e' : Z) :
  IZR (Zpos (shl_align m e e').1) * bpow (shl_align m e e').2 = IZR (Zpos m) * bpow e.
Proof.
  destruct (shl_align_spec m e e') as [H2 H1]. rewrite H1, H2, mult_IZR.
  assert (bpow e = IZR (2 ^ (e - Z.min e e')) * bpow (Z.min e e')) as Hsplit.
  { rewrite <- bpow_nonneg_exp, <- bpow_add by lia. f_equal. lia. }
  rewrite Hsplit. lra.
Qed.

Lemma binary_round_error (s : bool) (p : positive) (e : Z) :
  IZR (Zpos p) * bpow e <= bpow 1000 ->
  ∃ V : R,
    0 <= V ∧
    Rabs (V - IZR (Zpos p) * bpow e) <= IZR (Zpos p) * bpow e * bpow (-52) + bpow (-1074) ∧
    SF_finite (binary_round prec emax s p e) ∧
    SF2R (binary_round prec emax s p e) = (if s then - V else V).
Proof.
  intros Hmag. unfold binary_round.
  pose proof (shl_align_value p e (fexp prec emax (Zpos (digits2_pos p) + e))) as Hval.
  pose proof (shl_align_spec p e (fexp prec emax (Zpos (digits2_pos p) + e))) as [He' _].
  destruct (shl_align p e (fexp prec emax (Zpos (digits2_pos p) + e))) as [mz ez].
  cbn [fst snd] in *. rewrite <- Hval in *.
  apply round_exact_error; [lia| |done].
  rewrite He', fexp64.
  pose proof (digits2_pos_bounds p) as [Hd _].
  assert (Zpos (digits2_pos p) - 1 + e <= 1000)%Z; [|lia].
  apply bpow_le_inv. rewrite bpow_add, (bpow_nonneg_exp (Zpos (digits2_pos p) - 1)) by lia.
  rewrite Hval in Hmag. apply IZR_le in Hd. pose proof (bpow_pos e). nra.
Qed.

Lemma binary_normalize_error (z e : Z) :
  Rabs (IZR z * bpow e) <= bpow 1000 ->
  SF_finite (binary_normalize prec emax z e false) ∧
  Rabs (SF2R (binary_normalize prec emax z e false) - IZR z * bpow e)
  <= Rabs (IZR z * bpow e) * bpow (-52) + bpow (-1074).
Proof.
  intros Hmag. pose proof (bpow_pos (-1074)). pose proof (bpow_pos (-52)). pose proof (bpow_pos e).
  destruct z as [|p|p]; cbn [binary_normalize].
  - split; [done|]. cbn [SF2R]. rewrite Rmult_0_l, Rminus_diag, Rabs_R0. lra.
  - assert (0 < IZR (Zpos p)) by (apply IZR_lt; lia).
    assert (Rabs (IZR (Zpos p) * bpow e) = IZR (Zpos p) * bpow e) as Habs
      by (apply Rabs_pos_eq; nra).
    rewrite Habs in Hmag |- *.
    destruct (binary_round_error false p e Hmag) as (V & HV0 & Herr & Hfin & Hval).
    split; [done|]. by rewrite Hval.
  - assert (0 < IZR (Zpos p)) by (apply IZR_lt; lia).
    assert (IZR (Zneg p) * bpow e = - (IZR (Zpos p) * bpow e)) as Hneg.
    { change (Zneg p) with (- Zpos p)%Z. rewrite opp_IZR. lra. }
    assert (Rabs (IZR (Zpos p) * bpow e) = IZR (Zpos p) * bpow e) as Habs
      by (apply Rabs_pos_eq; nra).
    rewrite Hneg, Rabs_Ropp, Habs in Hmag |- *.
    destruct (binary_round_error true p e Hmag) as (V & HV0 & Herr & Hfin & Hval).
    split; [done|]. rewrite Hval.
    replace (- V - - (IZR (Zpos p) * bpow e)) with (- (V - IZR (Zpos p) * bpow e)) by lra.
    by rewrite Rabs_Ropp.
Qed.

Lemma cond_Zopp_value (s : bool) (m : positive) (e e' : Z) :
  IZR (cond_Zopp s (Zpos (shl_align m e e').1)) * bpow (shl_align m e e').2
  = SF2R (S754_finite s m e).
Proof.
  rewrite SF2R_cond. pose proof (shl_align_value m e e') as H.
  destruct s; cbn [cond_Zopp]; [|done]. rewrite opp_IZR. lra.
Qed.

Lemma SFadd_error (x y : spec_float) :
  SF_finite x -> SF_finite y ->
  Rabs (SF2R x + SF2R y) <= bpow 1000 ->
  SF_finite (SF64add x y) ∧
  Rabs (SF2R (SF64add x y) - (SF2R x + SF2R y))
  <= Rabs (SF2R x + SF2R y) * bpow (-52) + bpow (-1074).
Proof.
  intros Hfx Hfy Hmag.
  pose proof (bpow_pos (-1074)). pose proof (bpow_pos (-52)).
  assert (∀ r, 0 <= Rabs r * bpow (-52) + bpow (-1074)) as Hnn.
  { intros r. pose proof (Rabs_pos r). nra. }
  destruct x as [sx|sx| |sx mx ex]; try done; destruct y as [sy|sy| |sy my ey]; try done;
    unfold SF64add; cbn [SFadd SF_finite].
  - split; [by destruct sx, sy|]. assert (SF2R (if sx then if sy then S754_zero sx else S754_zero false
       else if sy then S754_zero false else S754_zero sx) = 0) as -> by (by destruct sx, sy).
    cbn [SF2R]. rewrite Rplus_0_l, Rminus_diag, Rabs_R0. lra.
  - split; [done|]. cbn [SF2R]. rewrite Rplus_0_l, Rminus_diag, Rabs_R0. apply Hnn.
  - split; [done|]. cbn [SF2R]. rewrite Rplus_0_r, Rminus_diag, Rabs_R0. apply Hnn.
  - set (ez := Z.min ex ey).
    pose proof (cond_Zopp_value sx mx ex ez) as Hx.
    pose proof (cond_Zopp_value sy my ey ez) as Hy.
    destruct (shl_align_spec mx ex ez) as [Hex _]. destruct (shl_align_spec my ey ez) as [Hey _].
    rewrite Hex in Hx. rewrite Hey in Hy.
    replace (Z.min ex ez) with ez in Hx by lia. replace (Z.min ey ez) with ez in Hy by lia.
    set (z := (cond_Zopp sx (Zpos (shl_align mx ex ez).1)
               + cond_Zopp sy (Zpos (shl_align my ey ez).1))%Z).
    assert (IZR z * bpow ez = SF2R (S754_finite sx mx ex) + SF2R (S754_finite sy my ey)) as Hz.
    { unfold z. rewrite plus_IZR, <- Hx, <- Hy. lra. }
    rewrite <- Hz in *. by apply binary_normalize_error.
Qed.

Lemma add_error (x y : float) :
  is_finite x = true -> is_finite y = true ->
  Rabs (to_R x + to_R y) <= bpow 1000 ->
  is_finite (x + y) = true ∧
  Rabs (to_R (x + y) - (to_R x + to_R y)) <= Rabs (to_R x + to_R y) * bpow (-52) + bpow (-1074).
Proof.
  intros Hx Hy Hmag. rewrite is_finite_SF in *. unfold to_R in *. rewrite add_spec.
  by apply SFadd_error.
Qed.


(** *** Division *)

Lemma new_location_exact (nb k : Z) : new_location nb k = loc_Exact -> k = 0%Z.
Proof.
  unfold new_location, new_location_even, new_location_odd.
  destruct (Z.even nb), (Z.eqb_spec k 0); done.
Qed.

(** The quotient mantissa [SFdiv_core_binary] hands to the rounding. *)
Lemma SFdiv_core_binary_spec (mx my : positive) (ex ey : Z) :
  bounded prec emax mx ex = true -> bounded prec emax my ey = true ->
  let '(q, e, l) := SFdiv_core_binary prec emax (Zpos mx) ex (Zpos my) ey in
  let X := IZR (Zpos mx) * bpow ex / (IZR (Zpos my) * bpow ey) in
  (0 <= q)%Z ∧
  IZR q * bpow e <= X <= IZR (q + 1) * bpow e ∧
  (l = loc_Exact -> X = IZR q * bpow e) ∧
  ((-1074 < e)%Z -> (2 ^ 52 <= q)%Z).
Proof.
  intros Hbx Hby. unfold SFdiv_core_binary.
  pose proof (bounded_spec _ _ Hbx) as (Hdx & Hex & Hnx).
  pose proof (bounded_spec _ _ Hby) as (Hdy & Hey & Hny).
  cbn [Zdigits2].
  set (dx := Zpos (digits2_pos mx)) in *. set (dy := Zpos (digits2_pos my)) in *.
  set (e := Z.min (fexp prec emax (dx + ex - (dy + ey))) (ex - ey)).
  set (s := (ex - ey - e)%Z).
  assert (0 <= s)%Z as Hs by (unfold s, e; lia).
  set (m' := match s with Zpos _ => Z.shiftl (Zpos mx) s | 0%Z => Zpos mx | Zneg _ => 0%Z end).
  assert (m' = Zpos mx * 2 ^ s)%Z as Hm'.
  { unfold m'. destruct s as [|p|p] eqn:Es; [lia| |lia].
    rewrite Z.shiftl_mul_pow2 by lia. done. }
  pose proof (Z.div_eucl_eq m' (Zpos my) ltac:(lia)) as Hdiv.
  pose proof (Z.mod_pos_bound m' (Zpos my) ltac:(lia)) as Hmod.
  unfold Z.modulo in Hmod.
  destruct (Z.div_eucl m' (Zpos my)) as [q r]. cbv zeta.
  assert (0 < 2 ^ s)%Z as Hps by (apply Z.pow_pos_nonneg; lia).
  assert (0 <= q)%Z as Hq0 by nia.
  pose proof (bpow_pos ex). pose proof (bpow_pos ey). pose proof (bpow_pos e).
  assert (0 < IZR (Zpos mx)) by (apply IZR_lt; lia).
  assert (0 < IZR (Zpos my)) as Hmy by (apply IZR_lt; lia).
  assert (IZR (Zpos mx) * bpow ex / (IZR (Zpos my) * bpow ey)
          = IZR m' / IZR (Zpos my) * bpow e) as HX.
  { rewrite Hm', mult_IZR. rewrite <- (bpow_nonneg_exp s) by done.
    assert (bpow ex = bpow s * bpow e * bpow ey) as ->.
    { rewrite <- !bpow_add. f_equal. unfold s. lia. }
    field. split; lra. }
  rewrite HX.
  assert (IZR m' = IZR (Zpos my) * IZR q + IZR r) as HmR by (rewrite Hdiv, plus_IZR, mult_IZR; done).
  assert (0 <= IZR r < IZR (Zpos my)) as HrR by (split; [apply IZR_le|apply IZR_lt]; lia).
  assert (IZR m' / IZR (Zpos my) = IZR q + IZR r / IZR (Zpos my)) as Hquot
    by (rewrite HmR; field; lra).
  assert (0 <= IZR r / IZR (Zpos my) < 1) as Hfrac.
  { split.
    - apply Rmult_le_pos; [lra|]. apply Rlt_le, Rinv_0_lt_compat. lra.
    - apply (Rmult_lt_reg_r (IZR (Zpos my))); [done|]. field_simplify; lra. }
  split; [done|split; [|split]].
  - rewrite Hquot, plus_IZR. split; nra.
  - intros Hl. apply new_location_exact in Hl. subst r. rewrite Hquot.
    replace (IZR 0 / IZR (Zpos my)) with 0 by (field; lra). lra.
  - intros He. unfold e in He. rewrite fexp64 in He.
    assert (53 - dx + dy <= s)%Z as Hs53 by (unfold s, e; rewrite fexp64; lia).
    pose proof (digits2_pos_bounds mx) as [Hmx1 _]. pose proof (digits2_pos_bounds my) as [_ Hmy2].
    fold dx in Hmx1. fold dy in Hmy2.
    assert (2 ^ 52 * Zpos my <= m')%Z as Hbig.
    { rewrite Hm'.
      assert (2 ^ (52 + dy) <= 2 ^ (dx - 1 + s))%Z by (apply Z.pow_le_mono_r; lia).
      assert (0 < dx)%Z by (unfold dx; lia). assert (0 < dy)%Z by (unfold dy; lia).
      rewrite !Z.pow_add_r in * by lia. nia. }
    destruct (Z_lt_le_dec q (2 ^ 52)) as [Hlt|]; [exfalso|done]. nia.
Qed.

Lemma SFdiv_error (x y : spec_float) :
  valid_binary x = true -> valid_binary y = true ->
  SF_finite x -> SF_finite y -> SF2R y <> 0 ->
  Rabs (SF2R x / SF2R y) <= bpow 1000 ->
  SF_finite (SF64div x y) ∧
  Rabs (SF2R (SF64div x y) - SF2R x / SF2R y)
  <= Rabs (SF2R x / SF2R y) * bpow (-52) + bpow (-1074).
Proof.
  intros Hvx Hvy Hfx Hfy Hy0 Hmag.
  pose proof (bpow_pos (-1074)) as Hb1074. pose proof (bpow_pos (-52)) as Hb52.
  destruct y as [sy|sy| |sy my ey]; try done; try (by cbn in Hy0).
  destruct x as [sx|sx| |sx mx ex]; try done; unfold SF64div; cbn [SFdiv SF_finite].
  { split; [done|]. cbn [SF2R]. unfold Rdiv. rewrite Rmult_0_l, Rminus_diag, Rabs_R0. lra. }
  cbn [valid_binary] in Hvx, Hvy.
  pose proof (SFdiv_core_binary_spec mx my ex ey Hvx Hvy) as Hcore.
  destruct (SFdiv_core_binary prec emax (Zpos mx) ex (Zpos my) ey) as [[q e] l].
  cbv zeta in Hcore. destruct Hcore as (Hq0 & HX & Hexact & Hbig).
  pose proof (bpow_pos ex). pose proof (bpow_pos ey). pose proof (bpow_pos e) as Hbe.
  assert (0 < IZR (Zpos mx)) by (apply IZR_lt; lia).
  assert (0 < IZR (Zpos my)) by (apply IZR_lt; lia).
  set (X := IZR (Zpos mx) * bpow ex / (IZR (Zpos my) * bpow ey)) in *.
  assert (0 < X) as HXpos.
  { unfold X. apply Rdiv_lt_0_compat; nra. }
  assert (SF2R (S754_finite sx mx ex) / SF2R (S754_finite sy my ey)
          = (if xorb sx sy then - X else X)) as Hquot.
  { rewrite !SF2R_cond. unfold X. destruct sx, sy; cbn [xorb]; field; split; lra. }
  rewrite Hquot in *.
  assert (Rabs (if xorb sx sy then - X else X) = X) as Habs.
  { destruct (xorb sx sy); cbv iota; [rewrite Rabs_Ropp|]; apply Rabs_pos_eq; lra. }
  rewrite Habs in *.
  assert (0 <= IZR q) as Hq0R by (by apply IZR_le).
  (* the exponent after rounding *)
  assert (bpow (e + dropped prec emax q e) <= X * bpow (-52) + bpow (-1074)
          ∨ (l = loc_Exact ∧ dropped prec emax q e = 0%Z)
          ∨ False) as Hbound.
  { destruct (Z_lt_le_dec 0%Z (dropped prec emax q e)) as [Hk|Hk].
    - left. destruct (Z.eq_dec q 0%Z) as [->|Hq].
      + rewrite dropped64 in *. cbn [Zdigits2] in *.
        replace (e + Z.max 0 (Z.max (0 - 53) (-1074 - e)))%Z with (-1074)%Z by lia. nra.
      + etrans; [apply bpow_dropped; lia|]. nra.
    - assert (dropped prec emax q e = 0%Z) as Hk0 by (unfold dropped in *; lia).
      rewrite Hk0, Z.add_0_r.
      destruct (Z.eq_dec e (-1074)%Z) as [->|He]; [left; nra|].
      left. assert (-1074 < e)%Z as He'.
      { rewrite dropped64 in Hk0. lia. }
      specialize (Hbig He'). apply IZR_le in Hbig.
      assert (bpow e = bpow (e + 52) * bpow (-52)) as ->.
      { rewrite <- bpow_add. f_equal. lia. }
      assert (bpow (e + 52) <= X); [|nra].
      rewrite Z.add_comm, bpow_add, (bpow_nonneg_exp 52) by lia. nra. }
  assert (e + dropped prec emax q e <= 970)%Z as Hov.
  { rewrite dropped64.
    assert (e <= 970)%Z as He970.
    { destruct (Z_lt_le_dec (-1074)%Z e) as [He'|]; [|lia].
      specialize (Hbig He'). apply IZR_le in Hbig.
      assert (bpow (52 + e) <= bpow 1000); [|apply bpow_le_inv in H3; lia].
      rewrite bpow_add, (bpow_nonneg_exp 52) by lia. nra. }
    assert (Zdigits2 q - 1 + e <= 1000)%Z; [|lia].
    destruct (Z.eq_dec q 0%Z) as [->|Hq]; [cbn; lia|].
    pose proof (Zdigits2_bounds q ltac:(lia)) as [Hd _]. pose proof (Zdigits2_nonneg q).
    apply bpow_le_inv. rewrite bpow_add, (bpow_nonneg_exp (Zdigits2 q - 1)) by (destruct q; cbn in *; lia).
    apply IZR_le in Hd. nra. }
  destruct (round_aux_error (xorb sx sy) q e l X Hq0 HX Hexact Hov)
    as (V & HV0 & Herr & Hex0 & Hfin & Hval).
  split; [done|]. rewrite Hval.
  assert (Rabs (V - X) <= X * bpow (-52) + bpow (-1074)) as Hfinal.
  { destruct Hbound as [Hb|[[Hl Hk]|[]]].
    - lra.
    - rewrite (Hex0 Hl Hk), Rminus_diag, Rabs_R0. nra. }
  destruct (xorb sx sy); cbv iota; [|done].
  replace (- V - - X) with (- (V - X)) by lra. by rewrite Rabs_Ropp.
Qed.

Lemma div_error (x y : float) :
  is_finite x = true -> is_finite y = true -> to_R y <> 0 ->
  Rabs (to_R x / to_R y) <= bpow 1000 ->
  is_finite (x / y) = true ∧
  Rabs (to_R (x / y) - to_R x / to_R y) <= Rabs (to_R x / to_R y) * bpow (-52) + bpow (-1074).
Proof.
  intros Hx Hy Hy0 Hmag. rewrite is_finite_SF in *. unfold to_R in *. rewrite div_spec.
  apply SFdiv_error; try done; apply Prim2SF_valid.
Qed.

End Real64Facts.

(** ** The mapper *)

Module UtilsFacts.
Import JS Real64 Real64Facts.
Local Open Scope R_scope.

(** *** [Math.round] *)

Lemma Number_of_integer_eq (z : Z) : Utils.Number_of_integer z = Number_of_Z z.
Proof.
  unfold Utils.Number_of_integer, Number_of_Z, Number_of_nat.
  destruct (z <? 0)%Z eqn:E.
  - apply Z.ltb_lt in E. by rewrite Z2Nat.id by lia.
  - apply Z.ltb_ge in E. by rewrite Z2Nat.id by lia.
Qed.

Lemma Math_round_near (v : float) (n : Z) :
  is_finite v = true ->
  - / 2 <= to_R v - IZR n < / 2 ->
  (Z.abs n <= 2 ^ 40)%Z ->
  (n <> 0%Z -> Utils.Math_round v = Number_of_Z n) ∧
  (n = 0%Z -> Utils.Math_round v = 0%float ∨ Utils.Math_round v = (-0)%float).
Proof.
  intros Hfin Hnear Hn. unfold is_finite, to_R in *. unfold Utils.Math_round.
  pose proof (SF2Prim_Prim2SF v) as Hv. pose proof (Prim2SF_valid v) as Hvalid.
  destruct (Prim2SF v) as [s|s| |s m e]; try done.
  - cbn [SF2R] in Hnear.
    assert (n = 0%Z) as ->.
    { assert (-1 < n < 1)%Z; [|lia]. split; apply lt_IZR; lra. }
    split; [done|]. intros _. rewrite <- Hv. destruct s; [by right|by left].
  - cbn [valid_binary] in Hvalid.
    pose proof (bounded_spec _ _ Hvalid) as (Hd & He & Hcan).
    pose proof (finite_value_bounds s _ _ Hvalid) as [_ H52].
    rewrite SF2R_cond in Hnear.
    assert (Rabs (IZR n) <= IZR (2 ^ 40)) as HnR.
    { rewrite <- abs_IZR. by apply IZR_le. }
    apply Rabs_le_inv in HnR. change (IZR (2 ^ 40)) with (bpow 40) in HnR.
    destruct (0 <=? e)%Z eqn:Ee.
    + exfalso. apply Z.leb_le in Ee.
      destruct Hcan as [Hcan|Hcan]; [|lia]. specialize (H52 Hcan).
      assert (bpow 52 <= bpow (e + 52)) by (apply bpow_le; lia).
      assert (bpow 52 = 4503599627370496) as H52v by reflexivity.
      assert (bpow 40 = 1099511627776) as H40v by reflexivity.
      rewrite H52v in *. rewrite H40v in *.
      destruct s; lra.
    + apply Z.leb_gt in Ee. cbv zeta.
      set (z := cond_Zopp s (Zpos m)) in *.
      assert (IZR z * bpow e = (if s then - (IZR (Zpos m) * bpow e) else IZR (Zpos m) * bpow e)) as Hz.
      { unfold z. destruct s; cbn [cond_Zopp]; [|done]. rewrite opp_IZR. lra. }
      rewrite <- Hz in Hnear.
      assert (((2 * z + 2 ^ (- e)) / 2 ^ (1 - e))%Z = n) as ->.
      { assert (0 < 2 ^ (- e))%Z as Hp by (apply Z.pow_pos_nonneg; lia).
        assert (2 ^ (1 - e) = 2 * 2 ^ (- e))%Z as Hp2.
        { replace (1 - e)%Z with (1 + - e)%Z by lia. rewrite Z.pow_add_r by lia. lia. }
        rewrite Hp2. symmetry.
        assert (bpow e = / IZR (2 ^ (- e))) as Hbe.
        { rewrite (bpow_opp' e). by rewrite bpow_nonneg_exp by lia. }
        assert (0 < IZR (2 ^ (- e))) as HpR by (by apply IZR_lt).
        rewrite Hbe in Hnear.
        assert (IZR n * IZR (2 ^ (- e)) - IZR (2 ^ (- e)) / 2 <= IZR z
                < IZR n * IZR (2 ^ (- e)) + IZR (2 ^ (- e)) / 2) as Hscaled.
        { destruct Hnear as [H1 H2].
          set (a := IZR (2 ^ (- e))) in *. set (w := IZR z * / a) in *.
          assert (IZR z = w * a) as -> by (unfold w; field; lra).
          split; nra. }
        assert (2 * n * 2 ^ (- e) <= 2 * z + 2 ^ (- e) < 2 * (n + 1) * 2 ^ (- e))%Z as HZ.
        { destruct Hscaled as [H1 H2]. split.
          - apply le_IZR. rewrite plus_IZR, !mult_IZR. lra.
          - apply lt_IZR. rewrite plus_IZR, !mult_IZR, plus_IZR. lra. }
        apply Z.div_unique with (2 * z + 2 ^ (- e) - 2 * 2 ^ (- e) * n)%Z; lia. }
      split.
      * intros Hn0. rewrite (proj2 (Z.eqb_neq n 0) Hn0). apply Number_of_integer_eq.
      * intros ->. cbn. destruct s; [by right|by left].
Qed.


(** *** Logarithms *)

Lemma ln_2_bounds : / 2 < ln 2 < 1.
Proof.
  split; [apply ln_lt_2|].
  rewrite <- (ln_exp 1). apply ln_increasing; [lra|].
  pose proof (exp_ineq1 1 ltac:(lra)). lra.
Qed.

Lemma ln_1p_upper (u : R) : -1 < u -> ln (1 + u) <= u.
Proof.
  intros Hu. rewrite <- (ln_exp u) at 2.
  pose proof (exp_ineq1_le u) as H.
  destruct (Req_dec (1 + u) (exp u)) as [->|Hne]; [lra|].
  apply Rlt_le, ln_increasing; lra.
Qed.

Lemma ln_1p_lower (u : R) : -1 < u -> u / (1 + u) <= ln (1 + u).
Proof.
  intros Hu.
  assert (ln (/ (1 + u)) <= - (u / (1 + u))) as H.
  { replace (/ (1 + u)) with (1 + - (u / (1 + u))) by (field; lra).
    apply ln_1p_upper.
    assert (u / (1 + u) < 1); [|lra].
    apply (Rmult_lt_reg_r (1 + u)); [lra|]. unfold Rdiv. rewrite Rmult_assoc, Rinv_l by lra. lra. }
  rewrite ln_Rinv in H by lra. lra.
Qed.

Lemma log2_perturb (y y' t : R) :
  0 < y -> 0 <= t <= / 2 -> Rabs (y' - y) <= y * t ->
  0 < y' ∧ Rabs (Spec.log2 y' - Spec.log2 y) <= 4 * t.
Proof.
  intros Hy Ht Hd. apply Rabs_le_inv in Hd.
  set (u := (y' - y) / y).
  assert (y' = y * (1 + u)) as Hy' by (unfold u; field; lra).
  assert (- t <= u <= t) as Hu.
  { unfold u. split.
    - apply (Rmult_le_reg_r y); [done|]. unfold Rdiv. rewrite Rmult_assoc, Rinv_l by lra. lra.
    - apply (Rmult_le_reg_r y); [done|]. unfold Rdiv. rewrite Rmult_assoc, Rinv_l by lra. lra. }
  assert (0 < 1 + u) by lra.
  split; [rewrite Hy'; nra|].
  pose proof ln_2_bounds as [Hl2 _].
  unfold Spec.log2. rewrite Hy', ln_mult by lra.
  replace ((ln y + ln (1 + u)) / ln 2 - ln y / ln 2) with (ln (1 + u) / ln 2) by (field; lra).
  pose proof (ln_1p_upper u ltac:(lra)) as Hup.
  pose proof (ln_1p_lower u ltac:(lra)) as Hlo.
  assert (- (2 * t) <= u / (1 + u)) as Hlo'.
  { apply (Rmult_le_reg_r (1 + u)); [lra|]. unfold Rdiv. rewrite Rmult_assoc, Rinv_l by lra. nra. }
  assert (- (2 * t) <= ln (1 + u) <= 2 * t) as Hln by lra.
  apply Rabs_le. unfold Rdiv.
  assert (0 < / ln 2 < 2) as Hinv.
  { split; [apply Rinv_0_lt_compat; lra|].
    assert (/ ln 2 < / / 2) as Hlt.
    { apply Rinv_lt_contravar; [|lra]. apply Rmult_lt_0_compat; lra. }
    by rewrite Rinv_inv in Hlt. }
  split; nra.
Qed.

Lemma ln_bpow (k : Z) : ln (bpow k) = IZR k * ln 2.
Proof.
  assert (∀ k, (0 <= k)%Z -> ln (bpow k) = IZR k * ln 2) as Hpos.
  { intros k' Hk. rewrite bpow_nonneg_exp by done.
    rewrite <- (Z2Nat.id k') at 1 by done. rewrite <- pow_IZR, ln_pow by lra.
    by rewrite INR_IZR_INZ, Z2Nat.id. }
  destruct (Z_lt_le_dec k 0) as [Hk|Hk]; [|by apply Hpos].
  rewrite (bpow_opp' k), ln_Rinv by apply bpow_pos. rewrite Hpos by lia.
  rewrite opp_IZR. lra.
Qed.

Lemma log2_bpow (k : Z) : Spec.log2 (bpow k) = IZR k.
Proof.
  unfold Spec.log2. rewrite ln_bpow. pose proof ln_2_bounds. field. lra.
Qed.

Lemma log2_le (a b : R) : 0 < a -> a <= b -> Spec.log2 a <= Spec.log2 b.
Proof.
  intros Ha Hab. unfold Spec.log2. pose proof ln_2_bounds as [Hl _].
  assert (ln a <= ln b) as Hln.
  { destruct (Req_dec a b) as [->|Hne]; [lra|]. apply Rlt_le, ln_increasing; lra. }
  apply Rmult_le_compat_r; [|done]. apply Rlt_le, Rinv_0_lt_compat. lra.
Qed.


(** *** The constants of the note mapper *)


Lemma to_R_440 : is_finite 440 = true ∧ to_R 440 = 440.
Proof. split; [reflexivity|]. to_R_num 440%float. lra. Qed.

Lemma to_R_12 : is_finite 12 = true ∧ to_R 12 = 12.
Proof. split; [reflexivity|]. to_R_num 12%float. lra. Qed.

Lemma to_R_69 : is_finite 69 = true ∧ to_R 69 = 69.
Proof. split; [reflexivity|]. to_R_num 69%float. lra. Qed.


(** *** The note mapper away from the rounding boundaries *)

Lemma frequencyToMidiNote_near (log2_approx : float -> float) (f : float) (n : Z) :
  is_finite f = true ->
  bpow (-1000) <= to_R f <= bpow 1000 ->
  is_finite (Utils.Math_log2 log2_approx (f / 440)) = true ->
  Rabs (to_R (Utils.Math_log2 log2_approx (f / 440)) - Spec.log2 (to_R (f / 440))) <= / 64 ->
  Rabs (69 + 12 * Spec.log2 (to_R f / 440) - IZR n) <= / 4 ->
  (n <> 0%Z -> Utils.frequencyToMidiNote log2_approx f = Number_of_Z n) ∧
  (n = 0%Z -> Utils.frequencyToMidiNote log2_approx f = 0%float
              ∨ Utils.frequencyToMidiNote log2_approx f = (-0)%float).
Proof.
  intros Hf Hrange HLfin HLacc Hn.
  destruct to_R_440 as [H440f H440]. destruct to_R_12 as [H12f H12]. destruct to_R_69 as [H69f H69].
  unfold Utils.frequencyToMidiNote.
  set (q := (f / 440)%float) in *. set (L := Utils.Math_log2 log2_approx q) in *.
  set (y := to_R f / 440) in *.
  pose proof (bpow_pos (-1000)) as Hp1000. pose proof (bpow_pos (-1074)) as Hp1074.
  pose proof (bpow_pos (-1009)) as Hp1009.
  assert (bpow (-1000) = bpow (-1009) * 512) as Hs1.
  { replace (-1000)%Z with (-1009 + 9)%Z by lia. rewrite bpow_add. by bpow_num. }
  assert (bpow (-1074) = bpow (-1009) * bpow (-65)) as Hs2.
  { rewrite <- bpow_add. f_equal. }
  assert (bpow (-1074) <= bpow (-65)) as Hs3 by (apply bpow_le; lia).
  assert (bpow 14 <= bpow 1000) as Hs4 by (apply bpow_le; lia).
  assert (bpow (-1009) <= y <= bpow 1000) as Hy by (unfold y; lra).
  (* the quotient *)
  destruct (div_error f 440 Hf H440f) as [Hqf Hqerr].
  { rewrite H440. lra. }
  { rewrite H440. fold y. rewrite Rabs_pos_eq by lra. lra. }
  rewrite H440 in Hqerr. fold y q in Hqerr, Hqf. rewrite (Rabs_pos_eq y) in Hqerr by lra.
  assert (Rabs (to_R q - y) <= y * bpow (-51)) as Hqrel.
  { etrans; [exact Hqerr|]. rewrite Hs2.
    assert (bpow (-52) + bpow (-65) <= bpow (-51)) by (bpow_num; lra).
    pose proof (bpow_pos (-65)). pose proof (bpow_pos (-52)). nra. }
  destruct (log2_perturb y (to_R q) (bpow (-51))) as [Hqpos Hlog]; [lra|bpow_num; lra|done|].
  (* the logarithm *)
  assert (-1009 <= Spec.log2 y <= 1000) as Hly.
  { split.
    - rewrite <- (log2_bpow (-1009)). apply log2_le; lra.
    - rewrite <- (log2_bpow 1000). apply log2_le; lra. }
  apply Rabs_le_inv in HLacc, Hlog, Hn.
  assert (Rabs (to_R L) <= 1010) as HLabs.
  { apply Rabs_le. revert Hlog. bpow_num. lra. }
  (* 12 * L *)
  destruct (mul_error 12 L H12f HLfin) as [HMf HMerr].
  { rewrite H12, Rabs_mult, (Rabs_pos_eq 12) by lra.
    assert (bpow 14 = 16384) as H14 by (by bpow_num). lra. }
  rewrite H12 in HMerr. rewrite Rabs_mult, (Rabs_pos_eq 12) in HMerr by lra.
  set (M := (12 * L)%float) in *.
  assert (Rabs (to_R M - 12 * to_R L) <= bpow (-38)) as HM.
  { etrans; [exact HMerr|]. revert Hs3. bpow_num. lra. }
  apply Rabs_le_inv in HM, HLabs.
  (* 69 + 12 * L *)
  destruct (add_error 69 M H69f HMf) as [Hvf Hverr].
  { rewrite H69. apply Rabs_le. assert (bpow 14 = 16384) as H14 by (by bpow_num).
    revert HM. bpow_num. lra. }
  rewrite H69 in Hverr. set (v := (69 + M)%float) in *.
  assert (Rabs (69 + to_R M) <= 16384) as Hsum.
  { apply Rabs_le. revert HM. bpow_num. lra. }
  assert (Rabs (to_R v - (69 + to_R M)) <= bpow (-37)) as Hv.
  { etrans; [exact Hverr|]. revert Hs3. bpow_num. pose proof (Rabs_pos (69 + to_R M)). lra. }
  apply Rabs_le_inv in Hv.
  (* rounding *)
  apply Math_round_near; [done| |].
  - revert Hv HM Hlog. bpow_num. lra.
  - assert (Rabs (IZR n) <= 13000) as HnR by (apply Rabs_le; lra).
    rewrite <- abs_IZR in HnR. apply le_IZR in HnR. lia.
Qed.


(** *** The exponents of the notes *)

Lemma exponent_ok_sound (n : Z) :
  Utils.exponent_ok n = true ->
  is_finite ((Number_of_Z n - 69) / 12) = true ∧
  Rabs (to_R ((Number_of_Z n - 69) / 12) - (IZR n - 69) / 12) <= bpow (-40).
Proof.
  unfold Utils.exponent_ok, is_finite, to_R.
  destruct (Prim2SF ((Number_of_Z n - 69) / 12)) as [s|s| |s m e]; try done.
  - intros Hn. apply Z.eqb_eq in Hn. subst n. split; [done|]. cbn [SF2R].
    replace (0 - (69 - 69) / 12) with 0 by field. rewrite Rabs_R0. apply Rlt_le, bpow_pos.
  - intros H. apply andb_true_iff in H as [He H]. apply Z.ltb_lt in He. apply Z.leb_le in H.
    split; [done|]. cbn [SF2R].
    set (z := cond_Zopp s (Zpos m)) in *.
    assert (0 < 2 ^ (- e))%Z as Hp by (apply Z.pow_pos_nonneg; lia).
    assert (bpow e = / IZR (2 ^ (- e))) as ->.
    { rewrite (bpow_opp' e). by rewrite bpow_nonneg_exp by lia. }
    set (a := IZR (2 ^ (- e))) in *.
    assert (0 < a) as Ha by (by apply IZR_lt).
    apply IZR_le in H. rewrite !mult_IZR, abs_IZR, minus_IZR, !mult_IZR, minus_IZR in H.
    fold a in H. change (IZR (2 ^ 40)) with (bpow 40) in H.
    assert (bpow (-40) = / bpow 40) as -> by (apply (bpow_opp 40)).
    pose proof (bpow_pos 40) as Hb.
    replace (IZR z * / a - (IZR n - 69) / 12)
      with ((12 * IZR z - (IZR n - 69) * a) * / (12 * a)) by (field; lra).
    rewrite Rabs_mult, Rabs_inv, (Rabs_pos_eq (12 * a)) by lra.
    apply (Rmult_le_reg_r (12 * a * bpow 40)); [nra|].
    replace (Rabs (12 * IZR z - (IZR n - 69) * a) * / (12 * a) * (12 * a * bpow 40))
      with (Rabs (12 * IZR z - (IZR n - 69) * a) * bpow 40) by (field; lra).
    replace (/ bpow 40 * (12 * a * bpow 40)) with (12 * a) by (field; lra).
    done.
Qed.

Lemma exponent_ok_all :
  forallb Utils.exponent_ok (map (λ k, (21 + Z.of_nat k)%Z) (seq 0 88)) = true.
Proof. vm_compute. reflexivity. Qed.

Lemma exponent_ok_range (n : Z) : (21 <= n <= 108)%Z -> Utils.exponent_ok n = true.
Proof.
  intros Hn. pose proof exponent_ok_all as H.
  rewrite forallb_forall in H. apply H. apply in_map_iff.
  exists (Z.to_nat (n - 21)). split; [lia|]. apply in_seq. lia.
Qed.


(** *** The round trip *)

Lemma Rpower_2_bounds (Y : R) : -5 <= Y <= 5 -> / 32 <= Rpower 2 Y <= 32.
Proof.
  intros [H1 H2].
  assert (Rpower 2 5 = 32) as H5.
  { replace 5 with (INR 5) by (simpl; lra). rewrite Rpower_pow by lra. simpl. lra. }
  assert (Rpower 2 (- (5)) = / 32) as H5' by (by rewrite Rpower_Ropp, H5).
  rewrite <- H5', <- H5. split; apply Rle_Rpower; lra.
Qed.

Lemma log2_Rpower (Y : R) : Spec.log2 (Rpower 2 Y) = Y.
Proof. unfold Spec.log2. rewrite ln_Rpower. pose proof ln_2_bounds. field. lra. Qed.

Lemma exp_lower (t : R) : -1 < t -> 1 + t <= exp t.
Proof.
  intros Ht. pose proof (ln_1p_upper t Ht) as H.
  rewrite <- (exp_ln (1 + t)) at 1 by lra.
  destruct H as [H| ->]; [left; by apply exp_increasing|right; done].
Qed.

Lemma exp_near_1 (t : R) : Rabs t <= bpow (-40) -> Rabs (exp t - 1) <= bpow (-39).
Proof.
  intros Ht%Rabs_le_inv. revert Ht. bpow_num. intros Ht.
  pose proof (exp_lower t) as H1. pose proof (exp_lower (- t)) as H2.
  rewrite exp_Ropp in H2. pose proof (exp_pos t) as Hp.
  assert (/ exp t * exp t = 1) as Hinv by (field; lra).
  apply Rabs_le. split; [lra|].
  assert ((1 - t) * exp t <= 1) by nra. nra.
Qed.

Lemma Rpower_2_perturb (Y Y0 : R) :
  Rabs (Y - Y0) <= bpow (-40) ->
  Rabs (Rpower 2 Y - Rpower 2 Y0) <= Rpower 2 Y0 * bpow (-39).
Proof.
  intros H. replace Y with (Y0 + (Y - Y0)) at 1 by lra. rewrite Rpower_plus.
  assert (0 < Rpower 2 Y0) as Hp by apply exp_pos.
  replace (Rpower 2 Y0 * Rpower 2 (Y - Y0) - Rpower 2 Y0)
    with (Rpower 2 Y0 * (Rpower 2 (Y - Y0) - 1)) by ring.
  rewrite Rabs_mult, (Rabs_pos_eq (Rpower 2 Y0)) by lra.
  apply Rmult_le_compat_l; [lra|]. unfold Rpower. apply exp_near_1.
  pose proof ln_2_bounds as H2. apply Rabs_le_inv in H. pose proof (bpow_pos (-40)).
  apply Rabs_le. split; nra.
Qed.



(** *** The specification's formula at given frequencies *)




Lemma log2_2 : Spec.log2 2 = 1.
Proof. unfold Spec.log2. pose proof ln_2_bounds. field. lra. Qed.











(** *** The code at given frequencies *)






(** An engine value for the instances: the logarithm of 2. *)
Lemma log2_at_880 :
  let L := Utils.Math_log2 (λ _, 1%float) (880 / 440) in
  is_finite 880 = true ∧ bpow (-1000) <= to_R 880 <= bpow 1000 ∧
  is_finite L = true ∧
  Rabs (to_R L - Spec.log2 (to_R (880 / 440)%float)) <= / 64 ∧
  Rabs (69 + 12 * Spec.log2 (to_R 880 / 440) - IZR 81) <= / 4.
Proof.
  cbv zeta.
  assert (Utils.Math_log2 (λ _, 1%float) (880 / 440) = 1%float) as -> by reflexivity.
  assert ((880 / 440)%float = 2%float) as -> by reflexivity.
  assert (to_R 880 = 880) as -> by (to_R_num 880%float; lra).
  assert (to_R 2 = 2) as -> by (to_R_num 2%float; lra).
  assert (to_R 1 = 1) as -> by (to_R_num 1%float; lra).
  replace (880 / 440) with 2 by lra. rewrite log2_2.
  assert (bpow (-1000) <= bpow 0) by (apply bpow_le; lia).
  assert (bpow 10 <= bpow 1000) by (apply bpow_le; lia).
  assert (bpow 10 = 1024) as H10 by (by bpow_num).
  assert (bpow 0 = 1) as Hb0 by (by bpow_num).
  split_and!; try reflexivity; try lra; apply Rabs_le; lra.
Qed.

Lemma pow_at_81 :
  let y := ((Number_of_Z 81 - 69) / 12)%float in
  let P := Utils.Math_pow (λ _ _, 2%float) 2 y in
  let freq := Utils.midiNoteToFrequency (λ _ _, 2%float) (Number_of_Z 81) in
  let L := Utils.Math_log2 (λ _, 1%float) (freq / 440) in
  is_finite P = true ∧
  Rabs (to_R P - Rpower 2 (to_R y)) <= Rpower 2 (to_R y) * bpow (-20) ∧
  is_finite L = true ∧
  Rabs (to_R L - Spec.log2 (to_R (freq / 440)%float)) <= / 64.
Proof.
  cbv zeta.
  assert (Utils.midiNoteToFrequency (λ _ _, 2%float) (Number_of_Z 81) = 880%float)
    as -> by reflexivity.
  assert (Utils.Math_pow (λ _ _, 2%float) 2 ((Number_of_Z 81 - 69) / 12) = 2%float)
    as -> by reflexivity.
  assert (((Number_of_Z 81 - 69) / 12)%float = 1%float) as -> by reflexivity.
  destruct log2_at_880 as (_ & _ & HLf & HL & _).
  assert (to_R 2 = 2) as -> by (to_R_num 2%float; lra).
  assert (to_R 1 = 1) as -> by (to_R_num 1%float; lra).
  rewrite Rpower_1 by lra.
  split_and!; try done. apply Rabs_le. bpow_num. lra.
Qed.

(** *** The claims about the note mapper *)




(** C6. For every integer note [n] from 21 to 108, the code maps the
    frequency of the note back to [n]:
    [frequencyToMidiNote(midiNoteToFrequency(n))] is [n], in binary64,
    on every engine whose [Math.pow] is finite and within a relative
    [2^-20] of the power at the exponent [(n - 69) / 12] the code
    computes, and whose [Math.log2] is finite and within [1/64] of the
    logarithm at the quotient the code computes.  The frequency
    [midiNoteToFrequency(n)] is then [440 * 2^((n - 69) / 12)] up to a
    relative [2^-18]. *)
Theorem C6_note_frequency_roundtrip
  (pow_approx : float -> float -> float) (log2_approx : float -> float)
  (n : Z) :
  (21 <= n <= 108)%Z ->
  let y := ((Number_of_Z n - 69) / 12)%float in
  let P := Utils.Math_pow pow_approx 2 y in
  let freq := Utils.midiNoteToFrequency pow_approx (Number_of_Z n) in
  let L := Utils.Math_log2 log2_approx (freq / 440) in
  is_finite P = true ->
  Rabs (to_R P - Rpower 2 (to_R y)) <= Rpower 2 (to_R y) * bpow (-20) ->
  is_finite L = true ->
  Rabs (to_R L - Spec.log2 (to_R (freq / 440))) <= / 64 ->
  Utils.frequencyToMidiNote log2_approx freq = Number_of_Z n ∧
  Rabs (to_R freq - Spec.noteToFrequency (IZR n))
  <= Spec.noteToFrequency (IZR n) * bpow (-18).
Proof.
  intros Hn y P freq L HPf HP HLf HL.
  destruct (exponent_ok_sound n (exponent_ok_range n Hn)) as [Hyf Hy]. fold y in Hyf, Hy.
  destruct to_R_440 as [H440f H440].
  assert (-4 <= (IZR n - 69) / 12 <= 4) as Hx.
  { destruct Hn as [Hn1 Hn2]. apply IZR_le in Hn1, Hn2. lra. }
  pose proof (Rpower_2_perturb _ _ Hy) as HT0%Rabs_le_inv.
  assert (0 < Rpower 2 ((IZR n - 69) / 12)) as HT0pos by apply exp_pos.
  apply Rabs_le_inv in Hy.
  assert (-5 <= to_R y <= 5) as HY by (revert Hy; bpow_num; lra).
  pose proof (Rpower_2_bounds (to_R y) HY) as HT.
  set (T := Rpower 2 (to_R y)) in *.
  apply Rabs_le_inv in HP.
  assert (/ 64 <= to_R P <= 64) as HPr by (revert HP; bpow_num; nra).
  assert (freq = (440 * P)%float) as Hfreq by reflexivity.
  destruct (mul_error 440 P H440f HPf) as [Hff Hferr].
  { rewrite H440, Rabs_mult, !Rabs_pos_eq by lra.
    assert (bpow 15 <= bpow 1000) by (apply bpow_le; lia).
    assert (bpow 15 = 32768) as H15 by (by bpow_num). lra. }
  rewrite <- Hfreq in Hferr, Hff. rewrite H440 in Hferr.
  rewrite (Rabs_pos_eq (440 * to_R P)) in Hferr by lra.
  apply Rabs_le_inv in Hferr.
  assert (bpow (-1074) <= bpow (-65)) as Hs3 by (apply bpow_le; lia).
  pose proof (bpow_pos (-1074)) as Hp1074.
  set (w := to_R freq / 440).
  assert (Rabs (w - T) <= T * bpow (-19)) as Hw.
  { apply Rabs_le. unfold w. revert Hferr HP Hs3. bpow_num. intros. split; nra. }
  destruct (log2_perturb T w (bpow (-19))) as [Hwpos Hlog]; [lra|bpow_num; lra|done|].
  unfold T in Hlog. rewrite log2_Rpower in Hlog. apply Rabs_le_inv in Hlog, Hw.
  assert (/ 64 <= w <= 64) as Hwr by (revert Hw; bpow_num; nra).
  split; [apply (frequencyToMidiNote_near log2_approx freq n); try done|].
  - assert (to_R freq = 440 * w) as -> by (unfold w; field).
    assert (bpow (-1000) <= bpow 0) by (apply bpow_le; lia).
    assert (bpow 15 <= bpow 1000) by (apply bpow_le; lia).
    assert (bpow 15 = 32768) as H15 by (by bpow_num).
    assert (bpow 0 = 1) as Hb0 by (by bpow_num). lra.
  - fold w. apply Rabs_le. revert Hlog Hy. bpow_num. lra.
  - lia.
  - assert (to_R freq = 440 * w) as -> by (unfold w; field).
    unfold Spec.noteToFrequency. apply Rabs_le. revert Hw HT0. bpow_num. lra.
Qed.

(** C6 at note 81, for an engine whose [Math.pow] returns 2 for [2^1] and
    whose [Math.log2] returns 1 for 2: the frequency is 880 Hz and the
    note is 81 again. *)
Lemma C6_note_frequency_roundtrip_witness :
  (21 <= 81 <= 108)%Z ∧
  Utils.midiNoteToFrequency (λ _ _, 2%float) (Number_of_Z 81) = 880%float ∧
  Utils.frequencyToMidiNote (λ _, 1%float)
    (Utils.midiNoteToFrequency (λ _ _, 2%float) (Number_of_Z 81))
  = Number_of_Z 81.
Proof.
  assert (21 <= 81 <= 108)%Z as Hn by (split; discriminate).
  destruct pow_at_81 as (HPf & HP & HLf & HL).
  pose proof (C6_note_frequency_roundtrip (λ _ _, 2%float) (λ _, 1%float) 81%Z
                Hn HPf HP HLf HL) as [H _].
  split; [exact Hn|split; [reflexivity|exact H]].
Defined.

End UtilsFacts.

(* ===================================================================== *)
(** * Part IV: the pitch estimator                                        *)
(* ===================================================================== *)

Module AudioProcessorFacts.
Import JS AudioProcessor.
Local Open Scope float_scope.

(** *** Typed arrays *)

Lemma Math_fround_0 : Math_fround 0 = 0.
Proof. reflexivity. Qed.

(** [Math_fround] and the reference rounding give the same binary64 value
    (same NaN, same sign of zero) on the test values. *)
Lemma Math_fround_agrees_with_reference :
  forallb (λ x, PrimFloat.Leibniz.eqb (Math_fround x) (Math_fround_reference x))
          Samples.fround_test_values = true.
Proof. vm_compute. reflexivity. Qed.

Lemma get_lookup (a : Float32Array) i v : a !! i = Some v → get a i = v.
Proof. unfold get. by intros ->. Qed.

Lemma get_put_eq (a : Float32Array) i v :
  (i < length a)%nat → get (put a i v) i = Math_fround v.
Proof. intros Hi. unfold get, put. by rewrite list_lookup_insert_eq. Qed.

Lemma put_put (a : Float32Array) i v w : put (put a i v) i w = put a i w.
Proof. unfold put. apply list_insert_insert_eq. Qed.

Lemma length_put (a : Float32Array) i v : length (put a i v) = length a.
Proof. unfold put. apply length_insert. Qed.

(** *** The first loop of [difference]: the buffer is cleared *)

Lemma clear_fold (rest : Float32Array) (k : nat) :
  fold_left (λ yb tau, put yb tau 0) (seq k (length rest)) (replicate k 0 ++ rest)
  = replicate (k + length rest) 0.
Proof.
  revert k. induction rest as [|r rest IH]; intros k.
  - simpl. by rewrite app_nil_r, Nat.add_0_r.
  - cbn [length seq fold_left]. unfold put at 2.
    rewrite insert_app_r_alt by (rewrite length_replicate; lia).
    rewrite length_replicate, Nat.sub_diag. cbn [insert list_insert].
    rewrite Math_fround_0, (cons_middle 0), app_assoc, <- replicate_S_end, IH.
    f_equal. lia.
Qed.

Lemma clear_loop (yb : Float32Array) :
  fold_left (λ yb tau, put yb tau 0) (seq 0 (length yb)) yb = replicate (length yb) 0.
Proof. apply (clear_fold yb 0). Qed.

(** *** The inner loop: one lag, accumulated in place *)

Lemma difference_inner_fold (buffer : Float32Array) (tau : nat) (idx : list nat)
  (yb : Float32Array) :
  (tau < length yb)%nat →
  fold_left (difference_inner buffer tau) idx yb
  = <[tau := fold_left (difference_term buffer tau) idx (get yb tau)]> yb.
Proof.
  intros Htau. revert yb Htau. induction idx as [|i idx IH]; intros yb Htau.
  - cbn [fold_left]. symmetry. apply list_insert_id.
    unfold get. destruct (lookup_lt_is_Some_2 yb tau Htau) as [v ->]. done.
  - cbn [fold_left]. rewrite IH by (unfold difference_inner; by rewrite length_put).
    unfold difference_inner at 1 2. rewrite get_put_eq by done.
    unfold put. rewrite list_insert_insert_eq. done.
Qed.

(** *** The outer loop: every lag once *)

Lemma difference_outer (buffer : Float32Array) (n : nat) (ts : list nat)
  (yb : Float32Array) :
  length yb = n → NoDup ts → (∀ t, t ∈ ts → (t < n)%nat) →
  let r := fold_left
             (λ yb tau, fold_left (difference_inner buffer tau) (seq 0 n) yb) ts yb in
  length r = n ∧
  ∀ t, r !! t = if decide (t ∈ ts)
                then Some (fold_left (difference_term buffer t) (seq 0 n) (get yb t))
                else yb !! t.
Proof.
  intros Hlen Hnd Hts. revert yb Hlen. induction ts as [|t0 ts IH]; intros yb Hlen.
  - cbn. split; [done|]. intros t. rewrite decide_False by apply not_elem_of_nil. done.
  - apply NoDup_cons in Hnd as [Ht0 Hnd].
    assert (t0 < n)%nat as Ht0n by (apply Hts; left).
    cbn [fold_left]. rewrite difference_inner_fold by lia.
    set (yb1 := <[t0 := _]> yb).
    assert (length yb1 = n) as Hlen1 by (unfold yb1; by rewrite length_insert).
    destruct (IH Hnd (λ t Ht, Hts t (list_elem_of_further _ _ _ Ht)) yb1 Hlen1) as [Hl Hr].
    split; [exact Hl|]. intros t. rewrite Hr.
    destruct (decide (t = t0)) as [->|Hne].
    + rewrite decide_False by done. rewrite decide_True by left.
      unfold yb1. rewrite list_lookup_insert_eq by lia. done.
    + destruct (decide (t ∈ ts)) as [Hin|Hin].
      * rewrite decide_True by (by right). do 2 f_equal.
        unfold get, yb1. by rewrite list_lookup_insert_ne.
      * rewrite decide_False by (rewrite elem_of_cons; tauto).
        unfold yb1. by rewrite list_lookup_insert_ne.
Qed.

(** *** [difference], entry by entry *)

Lemma difference_lookup (buffer yb : Float32Array) (tau : nat) :
  (tau < length yb)%nat →
  difference buffer yb !! tau
  = Some (if decide (tau = 0%nat) then 0 else differenceFunction buffer (length yb) tau).
Proof.
  intros Htau. unfold difference. rewrite clear_loop.
  destruct (difference_outer buffer (length yb) (seq 1 (length yb - 1))
              (replicate (length yb) 0)) as [_ Hr].
  - apply length_replicate.
  - apply NoDup_seq.
  - intros t Ht. apply elem_of_seq in Ht. lia.
  - rewrite Hr. destruct (decide (tau = 0%nat)) as [->|Hne].
    + rewrite decide_False by (rewrite elem_of_seq; lia).
      by apply lookup_replicate_2.
    + rewrite decide_True by (rewrite elem_of_seq; lia).
      unfold differenceFunction, get. rewrite lookup_replicate_2 by done. done.
Qed.

Lemma length_difference (buffer yb : Float32Array) :
  length (difference buffer yb) = length yb.
Proof.
  unfold difference. rewrite clear_loop.
  destruct (difference_outer buffer (length yb) (seq 1 (length yb - 1))
              (replicate (length yb) 0)) as [Hl _]; [apply length_replicate|apply NoDup_seq| |done].
  intros t Ht. apply elem_of_seq in Ht. lia.
Qed.

Lemma difference_fresh (buffer yb1 yb2 : Float32Array) :
  length yb1 = length yb2 → difference buffer yb1 = difference buffer yb2.
Proof. intros Hlen. unfold difference. by rewrite !clear_loop, Hlen. Qed.

(** C9. For every frame [buffer] and every previous content of the
    difference buffer, after [difference] the entry at each lag [tau] with
    [1 <= tau < N/2] (the buffer length) is the sum over [i < N/2] of
    [(x[i] - x[i + tau])^2], accumulated in index order in the buffer's
    arithmetic; entry 0 is zero; and the result is the same whatever the
    buffer held before: the call starts by clearing it. *)
Theorem C9_difference_is_squared_difference_sum (buffer yb : Float32Array) :
  length (difference buffer yb) = length yb ∧
  (∀ tau, (1 ≤ tau < length yb)%nat →
     difference buffer yb !! tau = Some (differenceFunction buffer (length yb) tau)) ∧
  ((0 < length yb)%nat → difference buffer yb !! 0%nat = Some 0) ∧
  (∀ stale : Float32Array, length stale = length yb →
     difference buffer stale = difference buffer yb).
Proof.
  split_and!.
  - apply length_difference.
  - intros tau Htau. rewrite difference_lookup by lia.
    rewrite decide_False by lia. done.
  - intros Hpos. by rewrite difference_lookup.
  - intros stale Hlen. by apply difference_fresh.
Qed.

(** C9 at an instance: sixteen samples, a buffer of eight entries, lag 3. *)
Lemma C9_difference_is_squared_difference_sum_witness :
  (1 ≤ 3 < length (Float32Array_new 8))%nat ∧
  difference [1; 0; 1; 0; 1; 0; 1; 0; 1; 0; 1; 0; 1; 0; 1; 0] (Float32Array_new 8) !! 3%nat
  = Some (differenceFunction [1; 0; 1; 0; 1; 0; 1; 0; 1; 0; 1; 0; 1; 0; 1; 0] 8 3).
Proof.
  assert (1 ≤ 3 < length (Float32Array_new 8))%nat as Hr by (vm_compute; lia).
  split; [exact Hr|].
  exact (proj1 (proj2 (C9_difference_is_squared_difference_sum
    [1; 0; 1; 0; 1; 0; 1; 0; 1; 0; 1; 0; 1; 0; 1; 0] (Float32Array_new 8))) 3%nat Hr).
Defined.

(** *** [difference] on the samples themselves *)

Lemma squaredDifferences_fold (x : Float32Array) (tau m k : nat) (acc : float) :
  (k + tau + m ≤ length x)%nat →
  fold_left (difference_term x tau) (seq k m) acc
  = squaredDifferences (drop k x) (drop (k + tau) x) m acc.
Proof.
  revert k acc. induction m as [|m IH]; intros k acc Hlen.
  - cbn. by destruct (drop k x).
  - cbn [seq fold_left].
    destruct (lookup_lt_is_Some_2 x k) as [a Ha]; [lia|].
    destruct (lookup_lt_is_Some_2 x (k + tau)) as [b Hb]; [lia|].
    rewrite (drop_S _ _ _ Ha), (drop_S _ _ _ Hb). cbn [squaredDifferences].
    rewrite IH by lia. unfold difference_term.
    by rewrite (get_lookup _ _ _ Ha), (get_lookup _ _ _ Hb).
Qed.

Lemma difference_eq_closed (x yb : Float32Array) :
  (2 * length yb ≤ length x + 1)%nat →
  difference x yb = difference_closed x (length yb).
Proof.
  intros Hlen. apply list_eq. intros i.
  destruct (decide (i < length yb)%nat) as [Hi|Hi].
  - rewrite difference_lookup by done. unfold difference_closed.
    destruct (length yb) as [|m] eqn:Hn; [lia|].
    destruct i as [|i]; [done|].
    rewrite decide_False by lia.
    change ((?a :: map ?f ?l) !! S ?j) with ((f <$> l) !! j).
    rewrite list_lookup_fmap, lookup_seq_lt by lia. cbn [fmap option_fmap option_map].
    unfold differenceFunction. rewrite squaredDifferences_fold by (cbn; lia).
    by rewrite drop_0.
  - rewrite !lookup_ge_None_2; [done| |rewrite length_difference; lia].
    unfold difference_closed. destruct (length yb) as [|m]; [cbn; lia|].
    cbn [length]. rewrite length_map, length_seq. lia.
Qed.

(** *** NaN in arithmetic *)

Lemma sub_nan_r x : x - nan = nan.
Proof.
  apply Prim2SF_inj. rewrite sub_spec.
  change (Prim2SF nan) with S754_nan. by destruct (Prim2SF x).
Qed.

Lemma add_nan_r x : x + nan = nan.
Proof.
  apply Prim2SF_inj. rewrite add_spec.
  change (Prim2SF nan) with S754_nan. by destruct (Prim2SF x).
Qed.

Lemma div_nan_r x : x / nan = nan.
Proof.
  apply Prim2SF_inj. rewrite div_spec.
  change (Prim2SF nan) with S754_nan. by destruct (Prim2SF x).
Qed.

(** *** Silence *)

Lemma silent_term (a b : float) :
  silent a → silent b → Math_fround (0 + (a - b) * (a - b)) = 0.
Proof. intros [-> | ->] [-> | ->]; reflexivity. Qed.

Lemma Math_fround_silent (frame : list float) :
  Forall silent frame → map Math_fround frame = frame.
Proof.
  induction 1 as [|s frame Hs _ IH]; [done|].
  cbn [map]. rewrite IH. by destruct Hs as [-> | ->].
Qed.

Lemma get_silent (x : Float32Array) i :
  Forall silent x → (i < length x)%nat → silent (get x i).
Proof.
  intros Hx Hi. destruct (lookup_lt_is_Some_2 x i Hi) as [v Hv].
  rewrite (get_lookup _ _ _ Hv). by apply (Forall_lookup_1 _ _ _ _ Hx Hv).
Qed.

Lemma differenceFunction_silent (x : Float32Array) (n tau : nat) :
  Forall silent x → (n + tau ≤ length x)%nat → differenceFunction x n tau = 0.
Proof.
  intros Hx Hlen. unfold differenceFunction.
  assert (∀ m k, (k + m ≤ n)%nat → fold_left (difference_term x tau) (seq k m) 0 = 0) as H.
  { induction m as [|m IH]; intros k Hk; [done|].
    cbn [seq fold_left]. unfold difference_term at 2.
    rewrite silent_term by (apply get_silent; [done|lia]).
    apply IH. lia. }
  by apply H.
Qed.

Lemma difference_silent (x yb : Float32Array) :
  Forall silent x → (2 * length yb ≤ length x + 1)%nat →
  difference x yb = replicate (length yb) 0.
Proof.
  intros Hx Hlen. apply list_eq. intros i.
  destruct (decide (i < length yb)%nat) as [Hi|Hi].
  - rewrite difference_lookup, lookup_replicate_2 by done.
    destruct (decide (i = 0%nat)); [done|].
    by rewrite differenceFunction_silent by (done || lia).
  - rewrite !lookup_ge_None_2; [done| |].
    + rewrite length_replicate. lia.
    + rewrite length_difference. lia.
Qed.

(** *** [cumulativeMeanNormalizedDifference] keeps the length *)

Lemma cmnd_step_length st tau :
  length (cmnd_step st tau).1.2 = length st.1.2.
Proof. destruct st as [[rs yb] ds]. cbn. apply length_put. Qed.

Lemma length_cumulativeMeanNormalizedDifference (yb : Float32Array) :
  length (cumulativeMeanNormalizedDifference yb) = length yb.
Proof.
  unfold cumulativeMeanNormalizedDifference, cmnd_loop.
  assert (∀ ts st, length (fold_left cmnd_step ts st).1.2 = length st.1.2) as H.
  { induction ts as [|t ts IH]; intros st; [done|].
    cbn [fold_left]. by rewrite IH, cmnd_step_length. }
  rewrite H. cbn. apply length_put.
Qed.

(** *** [absoluteThreshold] returns -1 or a lag inside the buffer *)

Lemma absoluteThreshold_descend_range (yb : Float32Array) fuel tau :
  (tau < length yb)%nat →
  (tau ≤ absoluteThreshold_descend yb fuel tau < length yb)%nat.
Proof.
  revert tau. induction fuel as [|fuel IH]; intros tau Htau;
    cbn [absoluteThreshold_descend]; [lia|].
  destruct (tau + 1 <? length yb)%nat eqn:Hn; cbn [andb]; [|lia].
  destruct (get yb (tau + 1) <? get yb tau); [|lia].
  apply Nat.ltb_lt in Hn. specialize (IH (tau + 1)%nat Hn). lia.
Qed.

Lemma absoluteThreshold_from_range (yb : Float32Array) fuel tau :
  absoluteThreshold_from yb fuel tau = (-1)%Z ∨
  (Z.of_nat tau ≤ absoluteThreshold_from yb fuel tau < Z.of_nat (length yb))%Z.
Proof.
  revert tau. induction fuel as [|fuel IH]; intros tau;
    cbn [absoluteThreshold_from]; [by left|].
  destruct (tau <? length yb)%nat eqn:Hn; [|by left].
  apply Nat.ltb_lt in Hn.
  destruct (get yb tau <? YIN_THRESHOLD).
  - right. pose proof (absoluteThreshold_descend_range yb (length yb) tau Hn). lia.
  - destruct (IH (tau + 1)%nat) as [->|H]; [by left|right; lia].
Qed.

(** The loops of [absoluteThreshold] stop by themselves: any fuel that
    covers the rest of the buffer gives the same result. *)
Lemma absoluteThreshold_descend_fuel (yb : Float32Array) fuel1 fuel2 tau :
  (length yb ≤ tau + fuel1)%nat → (length yb ≤ tau + fuel2)%nat →
  absoluteThreshold_descend yb fuel1 tau = absoluteThreshold_descend yb fuel2 tau.
Proof.
  revert fuel2 tau. induction fuel1 as [|fuel1 IH]; intros fuel2 tau H1 H2.
  - destruct fuel2 as [|fuel2]; [done|]. cbn [absoluteThreshold_descend].
    destruct (tau + 1 <? length yb)%nat eqn:Hn; [|done].
    apply Nat.ltb_lt in Hn. lia.
  - destruct fuel2 as [|fuel2]; cbn [absoluteThreshold_descend].
    + destruct (tau + 1 <? length yb)%nat eqn:Hn; [|done].
      apply Nat.ltb_lt in Hn. lia.
    + destruct (tau + 1 <? length yb)%nat eqn:Hn; [|done]. cbn [andb].
      destruct (get yb (tau + 1) <? get yb tau); [|done].
      apply IH; lia.
Qed.

Lemma absoluteThreshold_from_fuel (yb : Float32Array) fuel1 fuel2 tau :
  (length yb ≤ tau + fuel1)%nat → (length yb ≤ tau + fuel2)%nat →
  absoluteThreshold_from yb fuel1 tau = absoluteThreshold_from yb fuel2 tau.
Proof.
  revert fuel2 tau. induction fuel1 as [|fuel1 IH]; intros fuel2 tau H1 H2.
  - destruct fuel2 as [|fuel2]; [done|]. cbn [absoluteThreshold_from].
    destruct (tau <? length yb)%nat eqn:Hn; [|done].
    apply Nat.ltb_lt in Hn. lia.
  - destruct fuel2 as [|fuel2]; cbn [absoluteThreshold_from].
    + destruct (tau <? length yb)%nat eqn:Hn; [|done].
      apply Nat.ltb_lt in Hn. lia.
    + destruct (tau <? length yb)%nat eqn:Hn; [|done].
      destruct (get yb tau <? YIN_THRESHOLD); [done|].
      apply IH; lia.
Qed.

Lemma absoluteThreshold_range (yb : Float32Array) :
  absoluteThreshold yb = (-1)%Z ∨
  (1 ≤ absoluteThreshold yb < Z.of_nat (length yb))%Z.
Proof. apply (absoluteThreshold_from_range yb (length yb) 1). Qed.

(** *** [parabolicInterpolation] at the last lag *)

Lemma Float32Array_get_past_end (yb : Float32Array) :
  Float32Array_get yb (Z.of_nat (length yb) - 1 + 1) = None.
Proof.
  unfold Float32Array_get. replace (Z.of_nat (length yb) - 1 + 1)%Z with (Z.of_nat (length yb)) by lia.
  destruct (Z.of_nat (length yb) <? 0)%Z; [done|].
  rewrite Nat2Z.id. by apply lookup_ge_None_2.
Qed.

Lemma parabolicInterpolation_last_lag (yb : Float32Array) :
  parabolicInterpolation yb (Z.of_nat (length yb) - 1) = nan.
Proof.
  unfold parabolicInterpolation. cbv zeta.
  assert (getZ yb (Z.of_nat (length yb) - 1 + 1) = nan) as ->.
  { unfold getZ. by rewrite Float32Array_get_past_end. }
  rewrite sub_nan_r. change (2 * nan) with nan.
  by rewrite div_nan_r, add_nan_r.
Qed.

(** When the threshold search ends on the last lag, [detectPitch] returns
    NaN, and [processAudio] does not call the callback. *)
Lemma detectPitch_last_lag (buffer yb : Float32Array) :
  let yb' := cumulativeMeanNormalizedDifference (difference buffer yb) in
  absoluteThreshold yb' = (Z.of_nat (length yb') - 1)%Z →
  (2 ≤ length yb)%nat →
  detectPitch buffer yb = (yb', Some nan).
Proof.
  intros yb' Htau Hlen. unfold detectPitch. fold yb'. rewrite Htau.
  assert (length yb' = length yb) as Hl.
  { unfold yb'. by rewrite length_cumulativeMeanNormalizedDifference, length_difference. }
  destruct (Z.of_nat (length yb') - 1 =? -1)%Z eqn:E; [lia|].
  rewrite parabolicInterpolation_last_lag. done.
Qed.

(** *** A frame of the buffer's length replaces the audio buffer *)

Lemma Float32Array_set_full (target : Float32Array) (source : list float) :
  length source = length target →
  Float32Array_set target source = Some (map Math_fround source).
Proof.
  intros Hlen. unfold Float32Array_set. rewrite Hlen, Nat.ltb_irrefl.
  by rewrite drop_all, app_nil_r.
Qed.

(** *** The buffers keep their sizes *)

Lemma length_Float32Array_set (target : Float32Array) (source : list float) r :
  Float32Array_set target source = Some r → length r = length target.
Proof.
  unfold Float32Array_set. destruct (length target <? length source)%nat eqn:E; [done|].
  apply Nat.ltb_ge in E. intros [= <-].
  rewrite length_app, length_map, length_drop. lia.
Qed.

Lemma length_detectPitch (buffer yb : Float32Array) :
  length (detectPitch buffer yb).1 = length yb.
Proof.
  unfold detectPitch.
  destruct (absoluteThreshold _ =? -1)%Z; cbn [fst];
    by rewrite length_cumulativeMeanNormalizedDifference, length_difference.
Qed.

(** Every processor [processAudio] leaves has buffers of the sizes it was
    given, so every processor reached from [new] has the constructor's. *)
Lemma processAudio_sizes {W : Type} (frame : list float) (this : AudioProcessor.t W)
  (w : W) (st' : AudioProcessor.t W * W) :
  processAudio frame this w = Normal st' ∨ processAudio frame this w = Throw_RangeError st' →
  length (audioBuffer st'.1) = length (audioBuffer this) ∧
  length (yinBuffer st'.1) = length (yinBuffer this).
Proof.
  unfold processAudio.
  destruct (Float32Array_set (audioBuffer this) frame) as [ab|] eqn:Hset.
  - pose proof (length_Float32Array_set _ _ _ Hset) as Hab.
    pose proof (length_detectPitch ab (yinBuffer this)) as Hyb.
    destruct (detectPitch ab (yinBuffer this)) as [yb' pitch]. cbn [fst] in Hyb.
    assert (∀ w', st' = (AudioProcessor.mk ab yb' (onPitchDetected this), w') →
            length (audioBuffer st'.1) = length (audioBuffer this) ∧
            length (yinBuffer st'.1) = length (yinBuffer this)) as Hst.
    { intros w' ->. done. }
    destruct pitch as [p|]; [destruct (onPitchDetected this) as [cb|];
      [destruct (truthy (Some p))|]|];
      (intros [[= <-]|[=]]; by eapply Hst).
  - intros [[=]|[= <-]]. done.
Qed.

(** *** Silence, on buffers of the constructor's sizes *)

Lemma cmnd_loop_silence :
  cmnd_loop (replicate 1024 0) = (0, 1 :: replicate 1023 nan, replicate 1023 0).
Proof. vm_compute. reflexivity. Qed.

Lemma absoluteThreshold_all_nan :
  absoluteThreshold (1 :: replicate 1023 nan) = (-1)%Z.
Proof. vm_compute. reflexivity. Qed.

Lemma difference_silent_frame (frame yb : Float32Array) :
  length frame = BUFFER_SIZE → length yb = (BUFFER_SIZE / 2)%nat →
  Forall silent frame →
  difference frame yb = replicate 1024 0.
Proof.
  intros Hf Hyb Hs. rewrite difference_silent; [by rewrite Hyb|done|].
  rewrite Hf, Hyb. vm_compute. lia.
Qed.

(** C3 (as amended). For a silent frame (every sample a zero) and buffers of
    the constructor's sizes, [detectPitch] returns [null] and [processAudio]
    completes normally without calling the callback.  The normalization
    step has no guard: every running sum it divides by is zero, every
    quotient [tau / 0] is infinite and every entry from lag 1 on becomes
    [0 * Infinity = NaN]; no pitch is found because [NaN < threshold] is
    false.  The estimate carries no confidence. *)
Theorem C3_silent_frame_yields_no_pitch {W : Type} (this : AudioProcessor.t W)
  (w : W) (frame : list float) :
  length (audioBuffer this) = BUFFER_SIZE →
  length (yinBuffer this) = (BUFFER_SIZE / 2)%nat →
  length frame = BUFFER_SIZE →
  Forall silent frame →
  let yb := difference frame (yinBuffer this) in
  cumulativeMeanNormalizedDifference_divisors yb = replicate 1023 0 ∧
  cumulativeMeanNormalizedDifference yb = 1 :: replicate 1023 nan ∧
  absoluteThreshold (cumulativeMeanNormalizedDifference yb) = (-1)%Z ∧
  detectPitch frame (yinBuffer this) = (1 :: replicate 1023 nan, None) ∧
  processAudio frame this w
  = Normal (AudioProcessor.mk frame (1 :: replicate 1023 nan) (onPitchDetected this), w).
Proof.
  intros Hab Hyb Hf Hs. cbv zeta.
  assert (detectPitch frame (yinBuffer this) = (1 :: replicate 1023 nan, None)) as Hd.
  { unfold detectPitch, cumulativeMeanNormalizedDifference.
    rewrite difference_silent_frame, cmnd_loop_silence by done.
    cbn [fst snd]. by rewrite absoluteThreshold_all_nan. }
  unfold cumulativeMeanNormalizedDifference_divisors, cumulativeMeanNormalizedDifference.
  rewrite difference_silent_frame, cmnd_loop_silence by done. cbn [fst snd].
  split_and!; [done|done|apply absoluteThreshold_all_nan|exact Hd|].
  unfold processAudio. rewrite Float32Array_set_full by congruence.
  rewrite Math_fround_silent by done. rewrite Hd. done.
Qed.

(** C3 at the all-zero frame and a new processor. *)
Lemma C3_silent_frame_yields_no_pitch_witness :
  detectPitch Samples.silence_frame (yinBuffer (AudioProcessor.new unit))
  = (1 :: replicate 1023 nan, None).
Proof.
  exact (proj1 (proj2 (proj2 (proj2
    (C3_silent_frame_yields_no_pitch (AudioProcessor.new unit) tt Samples.silence_frame
       eq_refl eq_refl eq_refl (Forall_replicate silent 2048 0 (or_introl eq_refl))))))).
Defined.

(** C3, counterexample to the statement of the specification: on the
    all-zero frame the normalization step does divide by zero, at every
    lag (the divisors are the 1023 running sums, all zero), and the entry
    at lag 1 is NaN. *)
Lemma C3_counterexample_division_by_zero :
  cumulativeMeanNormalizedDifference_divisors
    (difference Samples.silence_frame (yinBuffer (AudioProcessor.new unit)))
  = replicate 1023 0 ∧
  cumulativeMeanNormalizedDifference
    (difference Samples.silence_frame (yinBuffer (AudioProcessor.new unit))) !! 1%nat
  = Some nan ∧
  Number_of_nat 1 / 0 = infinity ∧
  0 * infinity = nan.
Proof.
  unfold cumulativeMeanNormalizedDifference_divisors, cumulativeMeanNormalizedDifference.
  rewrite difference_silent_frame, cmnd_loop_silence;
    [|reflexivity|reflexivity|apply Forall_replicate; by left].
  split_and!; reflexivity.
Qed.

(** *** The sample frames, evaluated *)

Lemma yin_of_impulse_frame (yb : Float32Array) :
  length yb = 1024%nat →
  cumulativeMeanNormalizedDifference (difference Samples.impulse_frame yb)
  = Samples.impulse_yin.
Proof.
  intros Hlen. rewrite difference_eq_closed by (rewrite Hlen; vm_compute; lia).
  rewrite Hlen. vm_compute. reflexivity.
Qed.

Lemma yin_of_wobble_frame (yb : Float32Array) :
  length yb = 1024%nat →
  cumulativeMeanNormalizedDifference (difference Samples.wobble_frame yb)
  = Samples.wobble_yin.
Proof.
  intros Hlen. rewrite difference_eq_closed by (rewrite Hlen; vm_compute; lia).
  rewrite Hlen. vm_compute. reflexivity.
Qed.

Lemma detectPitch_impulse_frame (yb : Float32Array) :
  length yb = 1024%nat →
  detectPitch Samples.impulse_frame yb = (Samples.impulse_yin, Some nan).
Proof.
  intros Hlen. unfold detectPitch. rewrite yin_of_impulse_frame by done.
  vm_compute. reflexivity.
Qed.

Lemma detectPitch_wobble_frame (yb : Float32Array) :
  length yb = 1024%nat →
  detectPitch Samples.wobble_frame yb = (Samples.wobble_yin, Some Samples.wobble_pitch).
Proof.
  intros Hlen. unfold detectPitch. rewrite yin_of_wobble_frame by done.
  vm_compute. reflexivity.
Qed.

(** The numbers behind the two frames.  For [impulse_frame] the
    difference function is 3 at every lag but the last, where it is 0,
    so the normalized difference is 1 up to lag 1022 and 0 at lag 1023.
    For [wobble_frame] the difference function starts 1022.5, 0.5,
    1023.25, the normalized difference 1, 2 * 0.5 / 1023, 3 * 1023.25 /
    2046.25, and the refined lag is about 1.9. *)
Example impulse_frame_numbers :
  difference_closed Samples.impulse_frame 1024 = 0 :: replicate 1022 3 ++ [0].
Proof. vm_compute. reflexivity. Qed.

Example wobble_frame_numbers :
  take 4 (difference_closed Samples.wobble_frame 1024) = [0; 1022.5; 0.5; 1023.25] ∧
  take 4 Samples.wobble_yin = [1; 1; 0x1.00401p-10; 0x1.800c02p+0] ∧
  parabolicInterpolation Samples.wobble_yin 2 = 0x1.e65f594787f12p+0.
Proof. split_and!; vm_compute; reflexivity. Qed.

(** C4, the code at the failing input: a frame with a unit impulse every
    1023 samples.  The threshold search returns the last lag, 1023;
    [parabolicInterpolation] then reads [yinBuffer[1024]], one past the
    end, which is [undefined]; the refined lag and the pitch are NaN, and
    [processAudio] does not call the callback. *)
Theorem C4_interpolation_reads_past_the_end :
  let this := AudioProcessor.initialize Samples.record_pitch (AudioProcessor.new (list float)) in
  let yb := cumulativeMeanNormalizedDifference
              (difference Samples.impulse_frame (yinBuffer this)) in
  length Samples.impulse_frame = BUFFER_SIZE ∧
  length yb = 1024%nat ∧
  absoluteThreshold yb = 1023%Z ∧
  Float32Array_get yb (1023 + 1) = None ∧
  parabolicInterpolation yb 1023 = nan ∧
  detectPitch Samples.impulse_frame (yinBuffer this) = (yb, Some nan) ∧
  processAudio Samples.impulse_frame this []
  = Normal (AudioProcessor.mk Samples.impulse_frame yb (Some Samples.record_pitch), []).
Proof.
  cbv zeta. cbn [initialize yinBuffer audioBuffer onPitchDetected AudioProcessor.new].
  rewrite yin_of_impulse_frame by reflexivity.
  split_and!.
  - vm_compute. reflexivity.
  - vm_compute. reflexivity.
  - vm_compute. reflexivity.
  - vm_compute. reflexivity.
  - vm_compute. reflexivity.
  - by apply detectPitch_impulse_frame.
  - unfold processAudio. cbn [initialize yinBuffer audioBuffer onPitchDetected AudioProcessor.new].
    rewrite Float32Array_set_full by reflexivity.
    assert (map Math_fround Samples.impulse_frame = Samples.impulse_frame) as ->
      by (vm_compute; reflexivity).
    rewrite detectPitch_impulse_frame by reflexivity. reflexivity.
Qed.

End AudioProcessorFacts.

(* ===================================================================== *)
(** * Part V: the pipeline                                                *)
(* ===================================================================== *)

Module PipelineFacts.
Import JS.
Local Open Scope float_scope.

(** *** The sample frames through [Float32Array.set] *)

Lemma short_frame_fills_buffer :
  Float32Array_set (Float32Array_new AudioProcessor.BUFFER_SIZE) Samples.short_frame
  = Some Samples.wobble_frame.
Proof. vm_compute. reflexivity. Qed.

Lemma wobble_frame_fills_buffer :
  Float32Array_set (Float32Array_new AudioProcessor.BUFFER_SIZE) Samples.wobble_frame
  = Some Samples.wobble_frame.
Proof. vm_compute. reflexivity. Qed.

Section Pipeline.
Context {Note : Type} `{EqDecision Note} {MIDIOutput : Type}.
Variable frequencyToMidiNote : float -> Note.

Abbreviation app := (App.t Note MIDIOutput).
Abbreviation processor := (AudioProcessor.t (App.t Note MIDIOutput)).

(** *** What the tracker is given *)

Lemma candidateNotes_of_detected (pitch thr : float) :
  (thr <=? 1) = true →
  MIDIConverter.candidateNotes frequencyToMidiNote (App.detectedPitches_of pitch) thr
  = [frequencyToMidiNote pitch].
Proof.
  intros Hthr. unfold App.detectedPitches_of, MIDIConverter.candidateNotes.
  rewrite filter_cons_True by exact Hthr. done.
Qed.

Lemma handlePitchDetected_first_note (pitch : float) (this : app) (o : MIDIOutput) :
  MIDIConverter.midiOutput (App.midiConverter this) = Some o →
  MIDIConverter.activeNotes (App.midiConverter this) = [] →
  (App.noteThreshold this <=? 1) = true →
  App.handlePitchDetected frequencyToMidiNote pitch this
  = App.mk (MIDIConverter.mk (Some o) [frequencyToMidiNote pitch])
      (App.onsetThreshold this) (App.noteThreshold this)
      (App.sent this ++ [MIDIConverter.NoteOn (frequencyToMidiNote pitch) 100]).
Proof.
  intros Ho Hact Hthr. unfold App.handlePitchDetected, App.detectedPitches_of.
  destruct this as [[out act] ot nt snt]. cbn in Ho, Hact, Hthr |- *. subst out act.
  by rewrite (TrackerFacts.handleDetectedPitches_single_on_empty frequencyToMidiNote
                (MIDIConverter.mkPitch pitch 1) nt o Hthr).
Qed.

(** *** Frames of the wrong length *)

Lemma processAudio_too_long {W : Type} (frame : list float)
  (this : AudioProcessor.t W) (w : W) :
  (length (AudioProcessor.audioBuffer this) < length frame)%nat →
  AudioProcessor.processAudio frame this w = Throw_RangeError (this, w).
Proof.
  intros Hlen. unfold AudioProcessor.processAudio, Float32Array_set.
  apply Nat.ltb_lt in Hlen. by rewrite Hlen.
Qed.

Lemma processAudio_accepts {W : Type} (frame : list float)
  (this : AudioProcessor.t W) (w : W) :
  (length frame ≤ length (AudioProcessor.audioBuffer this))%nat →
  ∃ st', AudioProcessor.processAudio frame this w = Normal st' ∧
         AudioProcessor.audioBuffer st'.1
         = map Math_fround frame ++ drop (length frame) (AudioProcessor.audioBuffer this).
Proof.
  intros Hlen. unfold AudioProcessor.processAudio, Float32Array_set.
  apply Nat.ltb_ge in Hlen. rewrite Hlen.
  destruct (AudioProcessor.detectPitch _ _) as [yb' [p|]];
    [destruct (AudioProcessor.onPitchDetected this) as [cb|];
     [destruct (AudioProcessor.truthy (Some p))|]|];
    eexists; split; reflexivity.
Qed.

(** C7 (as amended). For every frame in which a pitch is detected at lag
    [tau], the estimate is a bare frequency: [detectPitch] returns
    [SAMPLE_RATE] divided by the refined lag and computes no confidence.
    [processAudio] passes the callback that number alone, and only when
    it is truthy: for a NaN or zero frequency the application state is
    left as it was.  Otherwise the application state is the one
    [handleDetectedPitches] leaves for the single pitch
    [{ freq: pitch, probability: 1.0 }]: the probability that accompanies
    the frequency is the constant 1, whatever the normalized difference
    at [tau], and under a note threshold of at most 1 the note of the
    frequency is the tracker's one candidate. *)
Theorem C7_estimate_is_a_bare_frequency (frame buf : list float)
  (st : processor * app) (tau : Z) :
  AudioProcessor.onPitchDetected st.1
  = Some (App.handlePitchDetected frequencyToMidiNote) →
  Float32Array_set (AudioProcessor.audioBuffer st.1) frame = Some buf →
  let yb' := AudioProcessor.cumulativeMeanNormalizedDifference
               (AudioProcessor.difference buf (AudioProcessor.yinBuffer st.1)) in
  AudioProcessor.absoluteThreshold yb' = tau →
  tau ≠ (-1)%Z →
  let pitch := AudioProcessor.SAMPLE_RATE
               / AudioProcessor.parabolicInterpolation yb' tau in
  let tracked := MIDIConverter.handleDetectedPitches frequencyToMidiNote
                   [MIDIConverter.mkPitch pitch 1] (App.noteThreshold st.2)
                   (App.midiConverter st.2) in
  AudioProcessor.detectPitch buf (AudioProcessor.yinBuffer st.1) = (yb', Some pitch) ∧
  App.onaudioprocess frame st
  = Normal (AudioProcessor.mk buf yb' (AudioProcessor.onPitchDetected st.1),
            if ToBoolean pitch
            then App.mk tracked.1 (App.onsetThreshold st.2) (App.noteThreshold st.2)
                   (App.sent st.2 ++ tracked.2)
            else st.2) ∧
  ((App.noteThreshold st.2 <=? 1) = true →
   MIDIConverter.candidateNotes frequencyToMidiNote [MIDIConverter.mkPitch pitch 1]
     (App.noteThreshold st.2)
   = [frequencyToMidiNote pitch]).
Proof.
  intros Hcb Hset yb' Htau Hne pitch tracked.
  assert (AudioProcessor.detectPitch buf (AudioProcessor.yinBuffer st.1)
          = (yb', Some pitch)) as Hdp.
  { unfold AudioProcessor.detectPitch. fold yb'. rewrite Htau.
    destruct (tau =? -1)%Z eqn:E; [by apply Z.eqb_eq in E|done]. }
  split_and!.
  - exact Hdp.
  - destruct st as [ap a]. cbn [fst snd] in *.
    unfold App.onaudioprocess, AudioProcessor.processAudio. cbn [fst snd].
    rewrite Hset, Hdp, Hcb. cbn [AudioProcessor.truthy].
    destruct (ToBoolean pitch); [|done].
    unfold App.handlePitchDetected, App.detectedPitches_of. fold tracked.
    by destruct tracked.
  - apply candidateNotes_of_detected.
Qed.

(** C8 (as amended). A frame longer than the audio buffer is rejected:
    [audioBuffer.set] throws a RangeError before anything is written, and
    the processor, the application state and so the active notes are left
    as they were.  A shorter frame is not rejected: its samples replace
    the start of the audio buffer, the rest keeps the samples of earlier
    frames, and the estimator runs on the result. *)
Theorem C8_frame_length_handling (frame : list float) (st : processor * app) :
  ((length (AudioProcessor.audioBuffer st.1) < length frame)%nat →
   App.onaudioprocess frame st = Throw_RangeError st) ∧
  ((length frame ≤ length (AudioProcessor.audioBuffer st.1))%nat →
   ∃ st', App.onaudioprocess frame st = Normal st' ∧
          AudioProcessor.audioBuffer st'.1
          = map Math_fround frame
            ++ drop (length frame) (AudioProcessor.audioBuffer st.1)).
Proof.
  destruct st as [ap a]. unfold App.onaudioprocess. cbn [fst snd]. split.
  - apply processAudio_too_long.
  - apply processAudio_accepts.
Qed.

End Pipeline.

(** *** Instances *)

(** The lag found in [wobble_frame]. *)
Lemma absoluteThreshold_wobble_frame (yb : Float32Array) :
  length yb = 1024%nat →
  AudioProcessor.absoluteThreshold
    (AudioProcessor.cumulativeMeanNormalizedDifference
       (AudioProcessor.difference Samples.wobble_frame yb)) = 2%Z.
Proof.
  intros Hlen. rewrite AudioProcessorFacts.yin_of_wobble_frame by done.
  vm_compute. reflexivity.
Qed.

(** C7 at [wobble_frame], a started processor and an application with an
    output port: the pitch is found at lag 2, and the application switches
    on the note of [wobble_pitch], 64 under [sample_mapping]. *)
Lemma C7_estimate_is_a_bare_frequency_witness :
  App.onaudioprocess Samples.wobble_frame
    (App.start Samples.sample_mapping (AudioProcessor.new (App.t Z unit)),
     App.initialize [tt] App.new)
  = Normal
      (AudioProcessor.mk Samples.wobble_frame Samples.wobble_yin
         (Some (App.handlePitchDetected Samples.sample_mapping)),
       App.mk (MIDIConverter.mk (Some tt) [64%Z])
         0x1.47ae147ae147bp-6 0x1.999999999999ap-1
         [MIDIConverter.NoteOn 64%Z 100]).
Proof.
  pose proof (C7_estimate_is_a_bare_frequency Samples.sample_mapping
    Samples.wobble_frame Samples.wobble_frame
    (App.start Samples.sample_mapping (AudioProcessor.new (App.t Z unit)),
     App.initialize [tt] App.new) 2%Z
    eq_refl wobble_frame_fills_buffer
    (absoluteThreshold_wobble_frame (Float32Array_new 1024) eq_refl)
    ltac:(discriminate)) as H.
  cbv zeta in H. destruct H as (_ & H & _).
  etrans; [exact H|]. cbn [fst snd].
  rewrite AudioProcessorFacts.yin_of_wobble_frame by reflexivity.
  vm_compute. reflexivity.
Defined.

(** C7, counterexample to the statement of the specification: on
    [wobble_frame] a pitch is detected at lag 2, where the normalized
    difference is not zero; one minus it is [wobble_confidence], about
    0.99902.  The pitch callback is given the frequency and nothing else,
    and the probability handed to the tracker with the pitch is 1. *)
Lemma C7_counterexample_confidence_not_reported :
  let estimate := AudioProcessor.detectPitch Samples.wobble_frame
                    (AudioProcessor.yinBuffer (AudioProcessor.new unit)) in
  estimate.2 = Some Samples.wobble_pitch ∧
  AudioProcessor.absoluteThreshold estimate.1 = 2%Z ∧
  1 - getZ estimate.1 2 = Samples.wobble_confidence ∧
  (Samples.wobble_confidence =? 1) = false ∧
  AudioProcessor.processAudio Samples.wobble_frame
    (AudioProcessor.initialize Samples.record_pitch (AudioProcessor.new (list float))) []
  = Normal (AudioProcessor.mk Samples.wobble_frame Samples.wobble_yin
              (Some Samples.record_pitch),
            [Samples.wobble_pitch]) ∧
  map MIDIConverter.probability (App.detectedPitches_of Samples.wobble_pitch) = [1].
Proof.
  cbv zeta. rewrite AudioProcessorFacts.detectPitch_wobble_frame by reflexivity.
  cbn [fst snd]. split_and!.
  - reflexivity.
  - vm_compute. reflexivity.
  - vm_compute. reflexivity.
  - vm_compute. reflexivity.
  - unfold AudioProcessor.processAudio.
    cbn [AudioProcessor.initialize AudioProcessor.yinBuffer AudioProcessor.audioBuffer
         AudioProcessor.onPitchDetected AudioProcessor.new].
    rewrite wobble_frame_fills_buffer.
    rewrite AudioProcessorFacts.detectPitch_wobble_frame by reflexivity. reflexivity.
  - reflexivity.
Qed.

(** C8 at a frame of 4096 samples and a new processor. *)
Lemma C8_frame_length_handling_witness :
  (length (AudioProcessor.audioBuffer (AudioProcessor.new (App.t Z unit)))
   < length Samples.long_frame)%nat ∧
  App.onaudioprocess Samples.long_frame (AudioProcessor.new (App.t Z unit), App.new)
  = Throw_RangeError (AudioProcessor.new (App.t Z unit), App.new).
Proof.
  assert (length (AudioProcessor.audioBuffer (AudioProcessor.new (App.t Z unit)))
          < length Samples.long_frame)%nat as Hlen by (vm_compute; lia).
  split; [exact Hlen|].
  exact (proj1 (C8_frame_length_handling Samples.long_frame
                  (AudioProcessor.new (App.t Z unit), App.new)) Hlen).
Defined.

(** C8, counterexample to the statement of the specification:
    [short_frame] has 2047 samples, one fewer than the frame length, and is
    not rejected.  With an output
    port selected and no note active, the call completes normally, the
    estimator detects [wobble_pitch], and the note of that pitch is
    switched on: the active notes change from none to that note, whatever
    the note mapping. *)
Lemma C8_counterexample_short_frame_accepted :
  length Samples.short_frame = 2047%nat ∧
  AudioProcessor.BUFFER_SIZE = 2048%nat ∧
  (∀ (Note : Type) (EqDecision0 : EqDecision Note) (frequencyToMidiNote : float → Note),
     let a := App.initialize [tt] App.new in
     let ap := App.start frequencyToMidiNote (AudioProcessor.new (App.t Note unit)) in
     MIDIConverter.activeNotes (App.midiConverter a) = [] ∧
     ∃ ap',
       AudioProcessor.audioBuffer ap' = Samples.wobble_frame ∧
       App.onaudioprocess Samples.short_frame (ap, a)
       = Normal
           (ap',
            App.mk (MIDIConverter.mk (Some tt) [frequencyToMidiNote Samples.wobble_pitch])
              (App.onsetThreshold a) (App.noteThreshold a)
              [MIDIConverter.NoteOn (frequencyToMidiNote Samples.wobble_pitch) 100])).
Proof.
  split_and!; [vm_compute; reflexivity|reflexivity|].
  intros Note ? f2n a ap. split; [reflexivity|].
  exists (AudioProcessor.mk Samples.wobble_frame Samples.wobble_yin
            (Some (App.handlePitchDetected (MIDIOutput:=unit) f2n))).
  split; [reflexivity|].
  unfold App.onaudioprocess, AudioProcessor.processAudio. cbn [fst snd].
  change (AudioProcessor.audioBuffer ap) with (Float32Array_new AudioProcessor.BUFFER_SIZE).
  rewrite short_frame_fills_buffer.
  change (AudioProcessor.yinBuffer ap) with (Float32Array_new 1024).
  rewrite AudioProcessorFacts.detectPitch_wobble_frame by reflexivity.
  change (AudioProcessor.onPitchDetected ap)
    with (Some (App.handlePitchDetected (MIDIOutput:=unit) f2n)).
  assert (AudioProcessor.truthy (Some Samples.wobble_pitch) = true) as ->
    by (vm_compute; reflexivity).
  rewrite (handlePitchDetected_first_note f2n Samples.wobble_pitch a tt);
    [reflexivity|reflexivity|reflexivity|vm_compute; reflexivity].
Qed.

End PipelineFacts.
